(** * StorageS3: short-link storage over a DynamoDB table and an S3 bucket

  A shallow embedding of [lib/storage/s3.ts].  The DynamoDB table is a
  finite map from the composite key [(prefix, unique_subhash)] to the
  remaining attributes of the item, the S3 bucket a finite map from
  [(path, key)] to the stored text.  The methods of [StorageS3] live in
  a state-and-exception monad over these two stores and the log.

  Strings are sequences of 8-bit characters compared by character code;
  the hashes and ids of the store are ASCII, where this is the order of
  both JavaScript and the sort key of DynamoDB.  Calls are served one
  after the other, and a query answers with the whole partition. *)

From Stdlib Require Import ZArith String Ascii Lia OrdersEx.
From Equations Require Import Equations.
From stdpp Require Import gmap strings list sorting.

Local Open Scope Z_scope.

(** ** JavaScript string primitives *)

Module Js.

(** [a < b] on strings: lexicographic comparison of the code units. *)
Definition lt (a b : string) : bool := String.ltb a b.

(** [a <= b] on strings. *)
Definition le (a b : string) : bool := String.leb a b.

(** [s.length] *)
Definition length (s : string) : Z := Z.of_nat (String.length s).

(** [s.substring(indexStart, indexEnd)]: both indices are clamped to
    [0 .. s.length] and swapped when out of order. *)
Definition substring (s : string) (indexStart indexEnd : Z) : string :=
  let clamp x := Z.max 0 (Z.min x (length s)) in
  let lo := Z.min (clamp indexStart) (clamp indexEnd) in
  let hi := Z.max (clamp indexStart) (clamp indexEnd) in
  String.substring (Z.to_nat lo) (Z.to_nat (hi - lo)) s.

(** [s.indexOf(searchString)]: first position, or [-1]. *)
Definition indexOf (s searchString : string) : Z :=
  match String.index 0 searchString s with
  | Some n => Z.of_nat n
  | None => -1
  end.

(** [a || b] on strings: the empty string and [undefined] are falsy. *)
Definition or_else (a : option string) (b : string) : string :=
  match a with
  | Some EmptyString | None => b
  | Some s => s
  end.

End Js.

(** ** The two underscore functions used by the resolver

    [_.indexOf] and [_.sortedIndex] as the underscore library defines
    them. *)

Module Underscore.

(** The loop of [_.sortedIndex(array, value)]:
    [while (low < high) { mid = floor((low + high) / 2);
       if (array[mid] < value) low = mid + 1; else high = mid; }].
    An out-of-range [array[mid]] is [undefined], and
    [undefined < value] is false. *)
Equations? sortedIndex_loop (array : list string) (value : string)
    (low high : nat) : nat by wf (high - low)%nat lt :=
  sortedIndex_loop array value low high with decide (low < high)%nat := {
    | right _ := low
    | left _ with array !! ((low + high) / 2)%nat := {
      | Some x with Js.lt x value := {
        | true := sortedIndex_loop array value ((low + high) / 2 + 1)%nat high
        | false := sortedIndex_loop array value low ((low + high) / 2)%nat }
      | None := sortedIndex_loop array value low ((low + high) / 2)%nat } }.
Proof.
  all: pose proof (Nat.div_mod_eq (low + high) 2);
    pose proof (Nat.mod_upper_bound (low + high) 2); lia.
Qed.

Definition sortedIndex (array : list string) (value : string) : nat :=
  sortedIndex_loop array value 0 (List.length array).

(** The linear scan [for (idx = 0; idx < length; idx++)
    if (array[idx] === item) return idx; return -1]. *)
Fixpoint indexOf_scan (array : list string) (item : string) (idx : Z) : Z :=
  match array with
  | [] => -1
  | x :: rest =>
      if String.eqb x item then idx else indexOf_scan rest item (idx + 1)
  end.

(** [_.indexOf(array, item, isSorted)]: with [isSorted] true and a
    non-empty array the position comes from the binary search
    ([array[idx] === item ? idx : -1]); otherwise from the linear scan. *)
Definition indexOf (array : list string) (item : string) (isSorted : bool) : Z :=
  if isSorted && negb (Nat.eqb (List.length array) 0) then
    let idx := sortedIndex array item in
    match array !! idx with
    | Some x => if String.eqb x item then Z.of_nat idx else -1
    | None => -1
    end
  else indexOf_scan array item 0.

End Underscore.

(** ** Errors, outcomes and the monad of the asynchronous methods *)

(** The exceptions a method of [StorageS3] can reject with.  The first
    three are the [new Error(...)] of the source, told apart by their
    message; the last one stands for a rejection coming from the AWS
    clients. *)
Inductive Error : Type :=
| SubhashExhausted (hash : string)
| NotInLinksTable (id : string)
| NotInStorage (id : string)
| BackendError (reason : string).

(** The double quote, as a one-character string. *)
Definition dquote : string := String (ascii_of_nat 34) EmptyString.

(** The text of the thrown [Error]. *)
Definition error_message (e : Error) : string :=
  match e with
  | SubhashExhausted hash =>
      String.append "Could not find unique subhash for hash "
        (String.append dquote (String.append hash dquote))
  | NotInLinksTable id =>
      String.append "ID " (String.append id " not present in links table")
  | NotInStorage id =>
      String.append "ID " (String.append id " not present in storage")
  | BackendError reason => reason
  end.

Inductive outcome (A : Type) : Type :=
| Return (a : A)
| Throw (e : Error).
Arguments Return {A} a.
Arguments Throw {A} e.

(** Attributes of an item of the links table besides its key. *)
Record Attributes : Type := mkAttributes {
  full_hash : string;
  stats_clicks : Z;
  creation_ip : string;
  creation_date : option Z;
  named_metadata : option string
}.

(** The world the methods act on: the DynamoDB table keyed by
    [(prefix, unique_subhash)], the S3 bucket keyed by [(path, key)],
    and the lines handed to the logger. *)
Record Cloud : Type := mkCloud {
  table : gmap (string * string) Attributes;
  bucket : gmap (string * string) string;
  logged : list string
}.

Definition M (A : Type) : Type := Cloud -> outcome A * Cloud.

Definition ret {A} (a : A) : M A := fun c => (Return a, c).

Definition throw {A} (e : Error) : M A := fun c => (Throw e, c).

Definition bind {A B} (m : M A) (k : A -> M B) : M B :=
  fun c =>
    match m c with
    | (Return a, c') => k a c'
    | (Throw e, c') => (Throw e, c')
    end.

(** [try { body } catch (err) { handler(err) }] *)
Definition try_catch {A} (body : M A) (handler : Error -> M A) : M A :=
  fun c =>
    match body c with
    | (Return a, c') => (Return a, c')
    | (Throw e, c') => handler e c'
    end.

(** [await Promise.all([p1, p2])] for two writes: both are issued, the
    second also when the first is rejected, and the promise rejects with
    the rejection that settles first.  When both writes are rejected the
    environment decides which one that is: [secondRejectsFirst]. *)
Definition promise_all2 (secondRejectsFirst : bool) (p1 p2 : M unit) : M unit :=
  fun c =>
    match p1 c with
    | (Return _, c1) => p2 c1
    | (Throw e1, c1) =>
        match p2 c1 with
        | (Return _, c2) => (Throw e1, c2)
        | (Throw e2, c2) => (Throw (if secondRejectsFirst then e2 else e1), c2)
        end
    end.

Notation "'let*' x := m 'in' k" := (bind m (fun x => k))
  (at level 10, x name, m at level 100, k at level 200).
Notation "m ;; k" := (bind m (fun _ => k))
  (at level 100, k at level 200, right associativity).

(** A computation that is over, with its outcome. *)
Definition settle {A} (o : outcome A) : M A := fun c => (o, c).

Definition logger (line : string) : M unit :=
  fun c => (Return tt, mkCloud (table c) (bucket c) (line :: logged c)).

(** ** The backing stores *)

(** [a <= b] as a relation, for stating that an array is sorted. *)
Definition js_le_rel (a b : string) : Prop := Js.le a b = true.

(** Order of the sort key in a partition. *)
Definition sort_key_le (a b : string * string) : Prop :=
  Js.le (fst a) (fst b) = true.

#[global] Instance sort_key_le_dec a b : Decision (sort_key_le a b) :=
  decide (Js.le (fst a) (fst b) = true).

(** [dynamoDb.query] with [KeyConditionExpression: 'prefix = :prefix'] and
    [ProjectionExpression: 'unique_subhash, full_hash']: the items of the
    partition, in ascending order of the sort key. *)
Definition partition_items (t : gmap (string * string) Attributes)
    (prefix : string) : list (string * string) :=
  merge_sort sort_key_le
    (omap (fun kv : (string * string) * Attributes =>
             if decide (fst (fst kv) = prefix)
             then Some (snd (fst kv), full_hash (snd kv))
             else None)
          (map_to_list t)).

Definition dynamoDb_query (prefix : string) : M (list (string * string)) :=
  fun c => (Return (partition_items (table c) prefix), c).

Definition dynamoDb_getItem (key : string * string) : M (option Attributes) :=
  fun c => (Return (table c !! key), c).

(** [dynamoDb.putItem]: the item replaces whatever the key held.  A
    [fault] is a rejection of the call, which then writes nothing. *)
Definition dynamoDb_putItem (fault : option Error) (key : string * string)
    (item : Attributes) : M unit :=
  fun c =>
    match fault with
    | Some e => (Throw e, c)
    | None => (Return tt, mkCloud (<[key := item]> (table c)) (bucket c) (logged c))
    end.

(** [dynamoDb.updateItem] with
    [UpdateExpression: 'SET stats.clicks = stats.clicks + :inc']: the
    expression reads [stats.clicks], so the call is rejected when the key
    holds no item. *)
Definition dynamoDb_updateItem (fault : option Error) (key : string * string)
    (inc : Z) : M unit :=
  fun c =>
    match fault with
    | Some e => (Throw e, c)
    | None =>
        match table c !! key with
        | None => (Throw (BackendError "ValidationException"), c)
        | Some a =>
            (Return tt,
             mkCloud (<[key := mkAttributes (full_hash a) (stats_clicks a + inc)
                                 (creation_ip a) (creation_date a)
                                 (named_metadata a)]> (table c))
                     (bucket c) (logged c))
        end
    end.

Definition s3_put (fault : option Error) (key value path : string) : M unit :=
  fun c =>
    match fault with
    | Some e => (Throw e, c)
    | None => (Return tt, mkCloud (table c) (<[(path, key) := value]> (bucket c)) (logged c))
    end.

(** [s3.get(key, path)]: [{hit: true, data}] or [{hit: false}]. *)
Definition s3_get (key path : string) : M (option string) :=
  fun c => (Return (bucket c !! (path, key)), c).

(** ** The objects passed in and out of [StorageS3] *)

(** What [findUniqueSubhash] resolves to. *)
Module SubHash.
Record t : Type := mk {
  prefix : string;
  uniqueSubHash : string;
  alreadyPresent : bool
}.
End SubHash.

Module StoredObject.
Record t : Type := mk {
  prefix : string;
  uniqueSubHash : string;
  fullHash : string;
  config : string
}.
End StoredObject.

Module ExpandedShortLink.
Record t : Type := mk {
  config : string;
  specialMetadata : option string;
  created : option Z
}.
End ExpandedShortLink.

(** The part of [express.Request | TestReq] that [storeItem] reads. *)
Module Req.
Record t : Type := mk {
  get : string -> option string;
  ip : string
}.
End Req.

Definition PREFIX_LENGTH : Z := 6.

Definition MIN_STORED_ID_LENGTH : Z := 9.

(** ** The class [StorageS3] *)

Section StorageS3.

(** [anonymizeIp] is imported from [../utils.js]; [storagePrefix] is
    [this.prefix], read from the AWS properties by the constructor;
    [localTZA t isUTC] is the offset in milliseconds of the time zone of
    the process, at the UTC time [t] when [isUTC] and at the local time
    [t] otherwise (LocalTZA of ECMAScript). *)
Variable anonymizeIp : string -> string.
Variable storagePrefix : string.
Variable localTZA : Z -> bool -> Z.

(** The value of [ip] that [storeItem] writes as [creation_ip]. *)
Definition creationIp (req : Req.t) : string :=
  let ip := Js.or_else (Req.get req "X-Forwarded-For") (anonymizeIp (Req.ip req)) in
  let commaIndex := Js.indexOf ip "," in
  if 0 <? commaIndex then
    String.append (anonymizeIp (Js.substring ip 0 commaIndex))
                  (Js.substring ip commaIndex (Js.length ip))
  else ip.

(** [now.setSeconds(0, 0)] on a time value in milliseconds: the time
    is read in local time, its seconds and milliseconds are set to 0,
    and the result is taken back to UTC. *)
Definition setSeconds00 (now : Z) : Z :=
  let t := now + localTZA now true in
  let date := t - t mod 60000 in
  date - localTZA date false.

(** [s3RejectsFirst] tells, for a call in which both writes are
    rejected, that the rejection of the bucket write settles first. *)
Definition storeItem (s3RejectsFirst : bool) (dynamoFault s3Fault : option Error)
    (now : Z) (item : StoredObject.t) (req : Req.t) : M StoredObject.t :=
  logger (String.append "Storing item " (StoredObject.prefix item)) ;;
  let ip := creationIp req in
  let now := setSeconds00 now in
  try_catch
    (promise_all2 s3RejectsFirst
       (dynamoDb_putItem dynamoFault
          (StoredObject.prefix item, StoredObject.uniqueSubHash item)
          (mkAttributes (StoredObject.fullHash item) 0 ip (Some now) None))
       (s3_put s3Fault (StoredObject.fullHash item) (StoredObject.config item)
          storagePrefix) ;;
     ret item)
    (fun err => logger "Unable to store item" ;; throw err).

(** The [for (let i = MIN_STORED_ID_LENGTH; i < hash.length - 1; i++)]
    loop of [findUniqueSubhash], entered at [i]. *)
Equations? findUniqueSubhash_loop (subHashes fullHashes : list string)
    (hash prefix : string) (i : Z) : outcome SubHash.t
    by wf (Z.to_nat (Js.length hash - 1 - i)) lt :=
  findUniqueSubhash_loop subHashes fullHashes hash prefix i
    with decide (i < Js.length hash - 1) := {
    | right _ := Throw (SubhashExhausted hash)
    | left _
        with decide (Underscore.indexOf subHashes (Js.substring hash 0 i) true = -1) := {
      | left _ := Return (SubHash.mk prefix (Js.substring hash 0 i) false)
      | right _
          with decide (fullHashes !! Z.to_nat
                         (Underscore.indexOf subHashes (Js.substring hash 0 i) true)
                       = Some hash) := {
        | left _ := Return (SubHash.mk prefix (Js.substring hash 0 i) true)
        | right _ :=
            findUniqueSubhash_loop subHashes fullHashes hash prefix (i + 1) } } }.
Proof. lia. Qed.

Definition findUniqueSubhash (hash : string) : M SubHash.t :=
  let prefix := Js.substring hash 0 PREFIX_LENGTH in
  let* data := dynamoDb_query prefix in
  let subHashes := fst <$> data in
  let fullHashes := snd <$> data in
  settle (findUniqueSubhash_loop subHashes fullHashes hash prefix
            MIN_STORED_ID_LENGTH).

Definition getKeyStruct (id : string) : string * string :=
  (Js.substring id 0 PREFIX_LENGTH, id).

Definition expandId (id : string) : M ExpandedShortLink.t :=
  let* item := dynamoDb_getItem (getKeyStruct id) in
  match item with
  | None => throw (NotInLinksTable id)
  | Some attributes =>
      let* result := s3_get (full_hash attributes) storagePrefix in
      match result with
      | None => throw (NotInStorage id)
      | Some data =>
          ret (ExpandedShortLink.mk data (named_metadata attributes)
                 (creation_date attributes))
      end
  end.

Definition incrementViewCount (fault : option Error) (id : string) : M unit :=
  try_catch
    (dynamoDb_updateItem fault (getKeyStruct id) 1)
    (fun err =>
       logger (String.append "Error when incrementing view count for " id)).

(** Modelled from the spec: the store operation of section 4.2, whose
    code (the request handler of the storage base class) is not part of
    this file.  It resolves the hash and writes the item with
    [storeItem], answering the short id.  For content already present
    the specification short-circuits the write but leaves open whether
    the handler attempts it all the same; [rewrite] selects the
    latter. *)
Definition store (rewrite s3RejectsFirst : bool)
    (dynamoFault s3Fault : option Error) (now : Z) (hash config : string)
    (req : Req.t) : M string :=
  let* result := findUniqueSubhash hash in
  if SubHash.alreadyPresent result && negb rewrite
  then ret (SubHash.uniqueSubHash result)
  else
    let* item := storeItem s3RejectsFirst dynamoFault s3Fault now
                   (StoredObject.mk (SubHash.prefix result)
                      (SubHash.uniqueSubHash result) hash config) req in
    ret (StoredObject.uniqueSubHash item).

(** One store request together with what the environment does to it. *)
Record StoreCall : Type := mkStoreCall {
  call_hash : string;
  call_config : string;
  call_req : Req.t;
  call_now : Z;
  call_rewrite : bool;
  call_s3RejectsFirst : bool;
  call_dynamoFault : option Error;
  call_s3Fault : option Error
}.

Definition store_call (call : StoreCall) : M string :=
  store (call_rewrite call) (call_s3RejectsFirst call) (call_dynamoFault call)
    (call_s3Fault call) (call_now call) (call_hash call) (call_config call)
    (call_req call).

(** Store requests served one after the other; the answer lists, oldest
    first, the [(hash, short id)] of the requests that were served. *)
Fixpoint store_all (calls : list StoreCall) (c : Cloud)
    : list (string * string) * Cloud :=
  match calls with
  | [] => ([], c)
  | call :: rest =>
      match store_call call c with
      | (Return id, c') =>
          let '(served, c'') := store_all rest c' in
          ((call_hash call, id) :: served, c'')
      | (Throw _, c') => store_all rest c'
      end
  end.

End StorageS3.

(** ** Vocabulary of the statements *)

(** The candidate of length [i] is held by an item of another hash. *)
Definition claimed_by_other (t : gmap (string * string) Attributes)
    (hash : string) (i : Z) : Prop :=
  exists a, t !! (Js.substring hash 0 PREFIX_LENGTH, Js.substring hash 0 i) = Some a
            /\ full_hash a <> hash.

(** The candidate of length [i] is held by an item of this very hash
    ([present = true]) or by no item at all ([present = false]). *)
Definition settles (t : gmap (string * string) Attributes)
    (hash : string) (i : Z) (present : bool) : Prop :=
  if present then
    exists a, t !! (Js.substring hash 0 PREFIX_LENGTH, Js.substring hash 0 i) = Some a
              /\ full_hash a = hash
  else t !! (Js.substring hash 0 PREFIX_LENGTH, Js.substring hash 0 i) = None.

(** The two plucked arrays answer for the partition [prefix] of [t]. *)
Definition plucked_from (t : gmap (string * string) Attributes) (prefix : string)
    (subHashes fullHashes : list string) : Prop :=
  forall subHash,
    match t !! (prefix, subHash) with
    | None => Underscore.indexOf subHashes subHash true = -1
    | Some a =>
        Underscore.indexOf subHashes subHash true <> -1 /\
        fullHashes !! Z.to_nat (Underscore.indexOf subHashes subHash true)
          = Some (full_hash a)
    end.

(** Every item of [t] is still in [t'], under the same full hash. *)
Definition links_kept (t t' : gmap (string * string) Attributes) : Prop :=
  forall key a, t !! key = Some a ->
    exists a', t' !! key = Some a' /\ full_hash a' = full_hash a.

(** [id] is the short id the table [t] holds for [hash]: the candidate of
    some admissible length, filed under [hash], every shorter candidate
    being held by another hash. *)
Definition allocated (t : gmap (string * string) Attributes)
    (hash id : string) : Prop :=
  exists j, MIN_STORED_ID_LENGTH <= j < Js.length hash - 1 /\
    id = Js.substring hash 0 j /\
    (forall k, MIN_STORED_ID_LENGTH <= k < j -> claimed_by_other t hash k) /\
    settles t hash j true.

(** ** Sample data for the worked scenarios *)

Definition cloud0 : Cloud := mkCloud ∅ ∅ [].

(** A process whose local time is UTC. *)
Definition utc_zone (t : Z) (isUTC : bool) : Z := 0.

(** A process in a zone 44 minutes and 30 seconds behind UTC. *)
Definition half_minute_zone (t : Z) (isUTC : bool) : Z := -2670000.

(** A stand-in anonymizer for running [storeItem] on concrete requests. *)
Definition sample_anonymizeIp (ip : string) : string := "anonymized".

(** A request without any [X-Forwarded-For] header. *)
Definition direct_req : Req.t := Req.mk (fun _ => None) "203.0.113.77".

(** A request whose [X-Forwarded-For] header names one address. *)
Definition forwarded_req : Req.t :=
  Req.mk (fun _ => Some "192.168.1.77"%string) "10.0.0.1".

(** A request that came through a proxy chain. *)
Definition chained_req : Req.t :=
  Req.mk (fun _ => Some "192.168.1.77, 10.1.1.1"%string) "10.0.0.1".

Definition scenario_item : StoredObject.t :=
  StoredObject.mk "abcdef" "abcdef123" "abcdef1234567890" "the config".

(** The partition after the first hash of the scenario has been stored. *)
Definition scenario_cloud : Cloud :=
  snd (storeItem sample_anonymizeIp "links/" utc_zone false None None 1530000012345
         scenario_item direct_req cloud0).

(** A partition whose 9-character id belongs to another hash. *)
Definition collision_cloud : Cloud :=
  snd (storeItem sample_anonymizeIp "links/" utc_zone false None None 1530000012345
         (StoredObject.mk "abcdef" "abcdef123" "abcdef123XX" "other config")
         direct_req cloud0).

(** An item filed under a partition key that is not the start of its id. *)
Definition misfiled_item : StoredObject.t :=
  StoredObject.mk "zzzzzz" "abcdef123" "abcdef1234567890" "the config".

(** Two store requests whose hashes share their first 9 characters. *)
Definition first_call : StoreCall :=
  mkStoreCall "abcdef1234567890" "the config" direct_req 1530000012345
    false false None None.

Definition second_call : StoreCall :=
  mkStoreCall "abcdef123ZZZZZZZ" "other config" forwarded_req 1530000098765
    true true None None.

(** Exhaustion as the specification words it, with candidate lengths
    running up to [len(fullHash) - 1] inclusive. *)
Definition spec_exhaustion (hash : string) (c : Cloud) : Prop :=
  fst (findUniqueSubhash hash c) = Throw (SubhashExhausted hash) <->
  forall i, MIN_STORED_ID_LENGTH <= i <= Js.length hash - 1 ->
    claimed_by_other (table c) hash i.

(** The last step of the concrete scenario as the specification words it:
    the second hash collides at length 9 and gets an id of 10 characters
    or more. *)
Definition spec_scenario_extends : Prop :=
  exists r, fst (findUniqueSubhash "abcdefZZZZZZZZZZ" scenario_cloud) = Return r /\
            MIN_STORED_ID_LENGTH + 1 <= Js.length (SubHash.uniqueSubHash r).

(** ** Repeated visits and further sample data *)

(** [incrementViewCount(id)] called [n] times in a row, every update
    being answered by the table. *)
Fixpoint incrementViewCount_times (n : nat) (id : string) : M unit :=
  match n with
  | O => ret tt
  | S n' => incrementViewCount None id ;; incrementViewCount_times n' id
  end.

(** Two tables hold the same links in the partition [prefix]: the same
    sort keys, each with the same full hash. *)
Definition same_partition (t t' : gmap (string * string) Attributes)
    (prefix : string) : Prop :=
  forall subHash,
    full_hash <$> (t !! (prefix, subHash)) = full_hash <$> (t' !! (prefix, subHash)).

(** An item of another hash that lands on the key of [scenario_item]. *)
Definition racing_item : StoredObject.t :=
  StoredObject.mk "abcdef" "abcdef123" "abcdef123ZZZZZZZ" "other config".

(** An item of another hash under a key of its own. *)
Definition other_item : StoredObject.t :=
  StoredObject.mk "abcdef" "abcdefZZZ" "abcdefZZZZZZZZZZ" "other config".

(** A rejection by one of the AWS clients. *)
Definition throttled : Error := BackendError "ProvisionedThroughputExceededException".

(** A request whose [X-Forwarded-For] header is there but empty. *)
Definition empty_header_req : Req.t :=
  Req.mk (fun _ => Some EmptyString) "203.0.113.77".

(** * Verification *)

(** ** The order on strings *)

Section StringOrder.

Lemma compare_as_OT (a b : string) :
  String.compare a b = String_as_OT.compare a b.
Proof.
  revert b. induction a as [|x a IH]; intros [|y b]; reflexivity.
Qed.

Lemma compare_refl (a : string) : String.compare a a = Eq.
Proof.
  rewrite compare_as_OT.
  destruct (String_as_OT.compare_spec a a) as [_|H|H]; try reflexivity;
    exfalso; revert H; apply (StrictOrder_Irreflexive (R := String_as_OT.lt)).
Qed.

Lemma compare_lt_trans (a b c : string) :
  String.compare a b = Lt -> String.compare b c = Lt -> String.compare a c = Lt.
Proof.
  rewrite !compare_as_OT.
  apply (StrictOrder_Transitive (R := String_as_OT.lt)).
Qed.

Lemma lt_le_false (a b : string) : Js.lt a b = true <-> Js.le b a = false.
Proof.
  unfold Js.lt, Js.le, String.ltb, String.leb.
  rewrite (String.compare_antisym a b).
  destruct (String.compare b a); simpl; split; congruence.
Qed.

Lemma lt_false_le (a b : string) : Js.lt a b = false <-> Js.le b a = true.
Proof.
  pose proof (lt_le_false a b) as H.
  destruct (Js.lt a b), (Js.le b a); intuition congruence.
Qed.

Lemma lt_irrefl (a : string) : Js.lt a a = false.
Proof. unfold Js.lt, String.ltb. rewrite compare_refl. reflexivity. Qed.

Lemma le_refl (a : string) : Js.le a a = true.
Proof. unfold Js.le, String.leb. rewrite compare_refl. reflexivity. Qed.

Lemma le_lt_trans (a b c : string) :
  Js.le a b = true -> Js.lt b c = true -> Js.lt a c = true.
Proof.
  unfold Js.le, Js.lt, String.leb, String.ltb.
  destruct (String.compare a b) eqn:Hab; try discriminate; intros _.
  - apply String.compare_eq_iff in Hab. subst. tauto.
  - destruct (String.compare b c) eqn:Hbc; try discriminate; intros _.
    rewrite (compare_lt_trans a b c Hab Hbc). reflexivity.
Qed.

Lemma lt_le_trans (a b c : string) :
  Js.lt a b = true -> Js.le b c = true -> Js.lt a c = true.
Proof.
  unfold Js.le, Js.lt, String.leb, String.ltb.
  destruct (String.compare a b) eqn:Hab; try discriminate; intros _.
  destruct (String.compare b c) eqn:Hbc; try discriminate; intros _.
  - apply String.compare_eq_iff in Hbc. subst. rewrite Hab. reflexivity.
  - rewrite (compare_lt_trans a b c Hab Hbc). reflexivity.
Qed.

Lemma le_trans (a b c : string) :
  Js.le a b = true -> Js.le b c = true -> Js.le a c = true.
Proof.
  intros Hab Hbc. apply lt_false_le.
  destruct (Js.lt c a) eqn:Hca; [|reflexivity].
  pose proof (lt_le_trans c a b Hca Hab) as Hcb.
  apply lt_le_false in Hcb. congruence.
Qed.

#[global] Instance sort_key_le_trans : Transitive sort_key_le.
Proof. intros a b c. unfold sort_key_le. apply le_trans. Qed.

#[global] Instance sort_key_le_total : Total sort_key_le.
Proof. intros a b. unfold sort_key_le. apply String.leb_total. Qed.

End StringOrder.

(** [assert(MIN_STORED_ID_LENGTH >= PREFIX_LENGTH)] *)
Lemma min_stored_id_length_asserted : MIN_STORED_ID_LENGTH >= PREFIX_LENGTH.
Proof. unfold MIN_STORED_ID_LENGTH, PREFIX_LENGTH. lia. Qed.

(** ** Prefixes of a string *)

Section Substring.

Lemma substring_0_length (n : nat) (s : string) :
  String.length (String.substring 0 n s) = Nat.min n (String.length s).
Proof.
  revert s. induction n as [|n IH]; intros [|x s]; simpl; try reflexivity.
  rewrite IH. reflexivity.
Qed.

Lemma substring_0_all (n : nat) (s : string) :
  (String.length s <= n)%nat -> String.substring 0 n s = s.
Proof.
  revert s. induction n as [|n IH]; intros [|x s]; simpl; intros H;
    try reflexivity; try lia.
  rewrite IH by lia. reflexivity.
Qed.

Lemma substring_0_prefix (n : nat) (s : string) :
  String.prefix (String.substring 0 n s) s = true.
Proof.
  revert s. induction n as [|n IH]; intros [|x s]; simpl; try reflexivity.
  rewrite IH. destruct (ascii_dec x x); congruence.
Qed.

Lemma substring_0_substring_0 (m n : nat) (s : string) :
  (m <= n)%nat ->
  String.substring 0 m (String.substring 0 n s) = String.substring 0 m s.
Proof.
  revert n s. induction m as [|m IH]; intros [|n] [|x s] H; simpl;
    try reflexivity; try lia.
  rewrite IH by lia. reflexivity.
Qed.

(** [s.substring(0, i)] keeps the first [i] characters. *)
Lemma js_substring_0 (s : string) (i : Z) :
  Js.substring s 0 i = String.substring 0 (Z.to_nat i) s.
Proof.
  unfold Js.substring, Js.length.
  set (len := String.length s).
  destruct (Z_lt_le_dec i (Z.of_nat len)) as [Hlt|Hge].
  - f_equal; lia.
  - rewrite (substring_0_all (Z.to_nat i)) by (fold len; lia).
    replace (Z.to_nat (Z.min _ _)) with 0%nat by lia.
    apply substring_0_all. fold len. lia.
Qed.

Lemma js_substring_0_length (s : string) (i : Z) :
  0 <= i <= Js.length s -> Js.length (Js.substring s 0 i) = i.
Proof.
  intros H. rewrite js_substring_0. unfold Js.length in *.
  rewrite substring_0_length. lia.
Qed.

Lemma js_substring_0_prefix (s : string) (i : Z) :
  String.prefix (Js.substring s 0 i) s = true.
Proof. rewrite js_substring_0. apply substring_0_prefix. Qed.

Lemma js_substring_0_inj (s : string) (i j : Z) :
  0 <= i <= Js.length s -> 0 <= j <= Js.length s ->
  Js.substring s 0 i = Js.substring s 0 j -> i = j.
Proof.
  intros Hi Hj Heq.
  rewrite <- (js_substring_0_length s i Hi), <- (js_substring_0_length s j Hj).
  rewrite Heq. reflexivity.
Qed.

(** The partition key of a candidate is the partition key of the hash. *)
Lemma js_substring_0_twice (s : string) (p i : Z) :
  p <= i -> Js.substring (Js.substring s 0 i) 0 p = Js.substring s 0 p.
Proof.
  intros H. rewrite !js_substring_0.
  apply substring_0_substring_0. lia.
Qed.

End Substring.

(** ** The binary search of [_.indexOf] on a sorted array *)

Section BinarySearch.

Lemma StronglySorted_lookup_le (array : list string) (i j : nat) (x y : string) :
  StronglySorted js_le_rel array -> (i < j)%nat ->
  array !! i = Some x -> array !! j = Some y -> Js.le x y = true.
Proof.
  intros Hs. revert i j. induction Hs as [|a l Hs IH Hall]; intros i j Hij Hi Hj.
  - discriminate.
  - destruct j as [|j]; [lia|]. destruct i as [|i]; simpl in *.
    + injection Hi as <-. rewrite Forall_forall in Hall.
      apply Hall. apply list_elem_of_lookup. eauto.
    + apply (IH i j); [lia|assumption..].
Qed.

Lemma sortedIndex_loop_spec (array : list string) (value : string) (low high : nat) :
  StronglySorted js_le_rel array ->
  (low <= high <= length array)%nat ->
  (forall k x, (k < low)%nat -> array !! k = Some x -> Js.lt x value = true) ->
  (forall k x, (high <= k)%nat -> array !! k = Some x -> Js.lt x value = false) ->
  (low <= Underscore.sortedIndex_loop array value low high <= high)%nat /\
  (forall k x, (k < Underscore.sortedIndex_loop array value low high)%nat ->
     array !! k = Some x -> Js.lt x value = true) /\
  (forall k x, (Underscore.sortedIndex_loop array value low high <= k)%nat ->
     array !! k = Some x -> Js.lt x value = false).
Proof.
  funelim (Underscore.sortedIndex_loop array value low high);
    intros Hs Hb Hlo Hhi.
  - (* low >= high: the loop is over *)
    assert (low = high) as -> by lia. repeat split; try lia; eauto.
  - (* array[mid] undefined: impossible inside the array *)
    exfalso.
    assert ((low + high) / 2 < length array)%nat as Hm.
    { pose proof (Nat.div_mod_eq (low + high) 2).
      pose proof (Nat.mod_upper_bound (low + high) 2). lia. }
    apply lookup_lt_is_Some in Hm. destruct Hm as [y Hy]. congruence.
  - (* array[mid] < value: low = mid + 1 *)
    pose proof (Nat.div_mod_eq (low + high) 2) as Hd.
    pose proof (Nat.mod_upper_bound (low + high) 2) as Hm.
    match goal with
    | IH : StronglySorted _ _ -> _ |- _ => destruct IH as (Hr & Hl & Hg)
    end; try assumption; try lia.
    + intros k y Hk Hy.
      destruct (decide (k = (low + high) / 2)%nat) as [->|Hne].
      * congruence.
      * apply (le_lt_trans y x value); [|assumption].
        apply (StronglySorted_lookup_le array k ((low + high) / 2) y x);
          auto; lia.
    + repeat split; try lia; assumption.
  - (* otherwise: high = mid *)
    pose proof (Nat.div_mod_eq (low + high) 2) as Hd.
    pose proof (Nat.mod_upper_bound (low + high) 2) as Hm.
    match goal with
    | IH : StronglySorted _ _ -> _ |- _ => destruct IH as (Hr & Hl & Hg)
    end; try assumption; try lia.
    + intros k y Hk Hy.
      destruct (decide (k = (low + high) / 2)%nat) as [->|Hne].
      * congruence.
      * destruct (Js.lt y value) eqn:Hyv; [|reflexivity].
        assert (Js.lt x value = true); [|congruence].
        apply (le_lt_trans x y value); [|assumption].
        apply (StronglySorted_lookup_le array ((low + high) / 2) k x y);
          auto; lia.
    + repeat split; try lia; assumption.
Qed.

Lemma indexOf_sorted (array : list string) (item : string) :
  StronglySorted js_le_rel array ->
  (Underscore.indexOf array item true = -1 /\ item ∉ array) \/
  (exists n : nat, Underscore.indexOf array item true = Z.of_nat n /\
                   array !! n = Some item).
Proof.
  intros Hs. unfold Underscore.indexOf. simpl.
  destruct array as [|a0 rest] eqn:Harr.
  { left. split; [reflexivity|]. apply not_elem_of_nil. }
  rewrite <- Harr in *. replace (Nat.eqb (length array) 0) with false
    by (subst; reflexivity).
  simpl. unfold Underscore.sortedIndex.
  destruct (sortedIndex_loop_spec array item 0 (length array) Hs)
    as (Hr & Hl & Hg).
  { lia. }
  { intros; lia. }
  { intros k x Hk Hx. apply lookup_lt_Some in Hx. lia. }
  set (idx := Underscore.sortedIndex_loop array item 0 (length array)) in *.
  assert (forall k, array !! k = Some item -> (idx <= k)%nat) as Hnot_below.
  { intros k Hk. destruct (le_lt_dec idx k) as [|Hlt]; [assumption|].
    pose proof (Hl k item Hlt Hk) as Hlt'. rewrite lt_irrefl in Hlt'.
    discriminate. }
  destruct (array !! idx) as [x|] eqn:Hx.
  - destruct (String.eqb_spec x item) as [->|Hne].
    + right. exists idx. split; [reflexivity|assumption].
    + left. split; [reflexivity|]. intros Hin.
      apply list_elem_of_lookup in Hin. destruct Hin as [k Hk].
      pose proof (Hnot_below k Hk) as Hge.
      destruct (decide (k = idx)) as [->|Hki]; [congruence|].
      apply Hne. apply String.leb_antisym.
      * apply (StronglySorted_lookup_le array idx k x item); auto; lia.
      * apply lt_false_le. apply (Hg idx x); [lia|assumption].
  - left. split; [reflexivity|]. intros Hin.
    apply list_elem_of_lookup in Hin. destruct Hin as [k Hk].
    pose proof (Hnot_below k Hk) as Hge.
    apply lookup_ge_None_1 in Hx. apply lookup_lt_Some in Hk. lia.
Qed.

End BinarySearch.

(** ** What a partition scan returns *)

Section PartitionScan.

Variable t : gmap (string * string) Attributes.
Variable prefix : string.

Lemma elem_of_partition_items (subHash fullHash : string) :
  (subHash, fullHash) ∈ partition_items t prefix <->
  exists a, t !! (prefix, subHash) = Some a /\ full_hash a = fullHash.
Proof.
  unfold partition_items. rewrite merge_sort_Permutation, list_elem_of_omap.
  split.
  - intros ([[p s] a] & Hin & Hf). apply elem_of_map_to_list in Hin.
    simpl in Hf. destruct (decide (p = prefix)) as [->|]; [|discriminate].
    injection Hf as -> <-. eauto.
  - intros (a & Hl & <-). exists ((prefix, subHash), a). split.
    + apply elem_of_map_to_list. assumption.
    + simpl. rewrite decide_True by reflexivity. reflexivity.
Qed.

Lemma partition_items_sorted :
  StronglySorted js_le_rel (fst <$> partition_items t prefix).
Proof.
  apply (StronglySorted_fmap fst sort_key_le js_le_rel).
  - intros x y H. exact H.
  - unfold partition_items. apply StronglySorted_merge_sort; apply _.
Qed.

Lemma partition_items_plucked :
  plucked_from t prefix (fst <$> partition_items t prefix)
               (snd <$> partition_items t prefix).
Proof.
  intros subHash.
  destruct (indexOf_sorted (fst <$> partition_items t prefix) subHash
              partition_items_sorted) as [[Hidx Hnotin]|(n & Hidx & Hn)].
  - destruct (t !! (prefix, subHash)) as [a|] eqn:Hl; [|assumption].
    exfalso. apply Hnotin. apply list_elem_of_fmap.
    exists (subHash, full_hash a). split; [reflexivity|].
    apply elem_of_partition_items. eauto.
  - rewrite list_lookup_fmap in Hn.
    destruct (partition_items t prefix !! n) as [[s f]|] eqn:Hd;
      [|discriminate].
    simpl in Hn. injection Hn as ->.
    assert ((subHash, f) ∈ partition_items t prefix) as Hin.
    { apply list_elem_of_lookup. eauto. }
    apply elem_of_partition_items in Hin. destruct Hin as (a & Hl & <-).
    rewrite Hl, Hidx. split; [lia|].
    rewrite Nat2Z.id, list_lookup_fmap, Hd. reflexivity.
Qed.

End PartitionScan.

(** ** The resolver loop, read off the table *)

Section ResolverLoop.

Variable t : gmap (string * string) Attributes.

Lemma findUniqueSubhash_loop_spec (subHashes fullHashes : list string)
    (hash key : string) (i : Z) :
  key = Js.substring hash 0 PREFIX_LENGTH ->
  plucked_from t key subHashes fullHashes ->
  match findUniqueSubhash_loop subHashes fullHashes hash key i with
  | Throw e =>
      e = SubhashExhausted hash /\
      forall j, i <= j < Js.length hash - 1 -> claimed_by_other t hash j
  | Return r =>
      exists j, i <= j < Js.length hash - 1 /\
        (forall k, i <= k < j -> claimed_by_other t hash k) /\
        settles t hash j (SubHash.alreadyPresent r) /\
        r = SubHash.mk key (Js.substring hash 0 j) (SubHash.alreadyPresent r)
  end.
Proof.
  funelim (findUniqueSubhash_loop subHashes fullHashes hash key i);
    intros Hp Hpl;
    try (pose proof (Hpl (Js.substring hash 0 i)) as Hc; rewrite Hp in Hc).
  - split; [reflexivity|]. intros j Hj. lia.
  - exists i. split; [lia|]. split; [intros; lia|]. split; [|reflexivity].
    simpl. destruct (t !! _); [|reflexivity].
    destruct Hc as [Hc _]. contradiction.
  - exists i. split; [lia|]. split; [intros; lia|]. split; [|reflexivity].
    simpl. destruct (t !! _) as [a|]; [|contradiction].
    destruct Hc as [_ Hc]. exists a. split; [reflexivity|]. congruence.
  - assert (claimed_by_other t hash i) as Hi.
    { unfold claimed_by_other.
      destruct (t !! _) as [a|]; [|contradiction].
      destruct Hc as [_ Hc]. exists a. split; [reflexivity|]. congruence. }
    match goal with
    | IH : _ = _ -> plucked_from _ _ _ _ -> _ |- _ =>
        specialize (IH Hp Hpl); rename IH into Hnext
    end.
    destruct (findUniqueSubhash_loop _ _ _ _ (i + 1)) as [r|e].
    + destruct Hnext as (j & Hj & Hbelow & Hset & Hr).
      exists j. repeat split; try lia; try assumption.
      intros k Hk. destruct (decide (k = i)) as [->|]; [assumption|].
      apply Hbelow. lia.
    + destruct Hnext as [He Hall]. split; [assumption|].
      intros j Hj. destruct (decide (j = i)) as [->|]; [assumption|].
      apply Hall. lia.
Qed.

End ResolverLoop.

(** ** The resolver *)

Section Resolver.

Lemma findUniqueSubhash_unfold (hash : string) (c : Cloud) :
  findUniqueSubhash hash c =
  (findUniqueSubhash_loop
     (fst <$> partition_items (table c) (Js.substring hash 0 PREFIX_LENGTH))
     (snd <$> partition_items (table c) (Js.substring hash 0 PREFIX_LENGTH))
     hash (Js.substring hash 0 PREFIX_LENGTH) MIN_STORED_ID_LENGTH, c).
Proof. reflexivity. Qed.

(** The scan reads the table and writes nothing. *)
Lemma findUniqueSubhash_reads (hash : string) (c : Cloud) :
  snd (findUniqueSubhash hash c) = c.
Proof. reflexivity. Qed.

Lemma findUniqueSubhash_spec (hash : string) (c : Cloud) :
  match fst (findUniqueSubhash hash c) with
  | Throw e =>
      e = SubhashExhausted hash /\
      forall j, MIN_STORED_ID_LENGTH <= j < Js.length hash - 1 ->
        claimed_by_other (table c) hash j
  | Return r =>
      exists j, MIN_STORED_ID_LENGTH <= j < Js.length hash - 1 /\
        (forall k, MIN_STORED_ID_LENGTH <= k < j ->
           claimed_by_other (table c) hash k) /\
        settles (table c) hash j (SubHash.alreadyPresent r) /\
        r = SubHash.mk (Js.substring hash 0 PREFIX_LENGTH)
              (Js.substring hash 0 j) (SubHash.alreadyPresent r)
  end.
Proof.
  rewrite findUniqueSubhash_unfold. simpl.
  apply findUniqueSubhash_loop_spec; [reflexivity|].
  apply partition_items_plucked.
Qed.

Lemma settles_not_claimed (t : gmap (string * string) Attributes)
    (hash : string) (i : Z) (present : bool) :
  settles t hash i present -> ~ claimed_by_other t hash i.
Proof.
  intros Hs (a & Ha & Hne). destruct present; simpl in Hs.
  - destruct Hs as (a' & Ha' & Heq). congruence.
  - congruence.
Qed.

(** At most one candidate length, and one verdict, settles a hash. *)
Lemma settles_unique (t : gmap (string * string) Attributes) (hash : string)
    (i j lo : Z) (p q : bool) :
  lo <= i -> lo <= j ->
  (forall k, lo <= k < i -> claimed_by_other t hash k) ->
  (forall k, lo <= k < j -> claimed_by_other t hash k) ->
  settles t hash i p -> settles t hash j q -> i = j /\ p = q.
Proof.
  intros Hi Hj Hbi Hbj Hsi Hsj.
  assert (i = j) as ->.
  { destruct (Z.lt_trichotomy i j) as [Hlt|[Heq|Hgt]]; [|assumption|].
    - exfalso. apply (settles_not_claimed t hash i p Hsi). apply Hbj. lia.
    - exfalso. apply (settles_not_claimed t hash j q Hsj). apply Hbi. lia. }
  split; [reflexivity|].
  destruct p, q; simpl in *; try reflexivity.
  - destruct Hsi as (a & Ha & _). congruence.
  - destruct Hsj as (a & Ha & _). congruence.
Qed.

(** The resolver answers with the settled candidate. *)
Lemma findUniqueSubhash_settled (hash : string) (c : Cloud) (j : Z) (p : bool) :
  MIN_STORED_ID_LENGTH <= j < Js.length hash - 1 ->
  (forall k, MIN_STORED_ID_LENGTH <= k < j -> claimed_by_other (table c) hash k) ->
  settles (table c) hash j p ->
  findUniqueSubhash hash c =
  (Return (SubHash.mk (Js.substring hash 0 PREFIX_LENGTH)
             (Js.substring hash 0 j) p), c).
Proof.
  intros Hj Hbelow Hset.
  pose proof (findUniqueSubhash_spec hash c) as Hspec.
  pose proof (findUniqueSubhash_reads hash c) as Hrd.
  destruct (findUniqueSubhash hash c) as [[r|e] c']; simpl in *; subst c'.
  - destruct Hspec as (j' & Hj' & Hbelow' & Hset' & ->). simpl in *.
    destruct (settles_unique (table c) hash j j' MIN_STORED_ID_LENGTH p
                (SubHash.alreadyPresent r)) as [-> ->];
      try assumption; try lia.
    reflexivity.
  - destruct Hspec as [_ Hall]. exfalso.
    apply (settles_not_claimed _ _ _ _ Hset). apply Hall. assumption.
Qed.

Lemma claimed_by_other_kept (t t' : gmap (string * string) Attributes)
    (hash : string) (i : Z) :
  links_kept t t' -> claimed_by_other t hash i -> claimed_by_other t' hash i.
Proof.
  intros Hk (a & Ha & Hne). destruct (Hk _ _ Ha) as (a' & Ha' & Heq).
  exists a'. split; [assumption|congruence].
Qed.

Lemma settles_present_kept (t t' : gmap (string * string) Attributes)
    (hash : string) (i : Z) :
  links_kept t t' -> settles t hash i true -> settles t' hash i true.
Proof.
  intros Hk (a & Ha & Hne). destruct (Hk _ _ Ha) as (a' & Ha' & Heq).
  exists a'. split; [assumption|congruence].
Qed.

Lemma links_kept_refl (t : gmap (string * string) Attributes) : links_kept t t.
Proof. intros key a Ha. eauto. Qed.

Lemma links_kept_trans (t1 t2 t3 : gmap (string * string) Attributes) :
  links_kept t1 t2 -> links_kept t2 t3 -> links_kept t1 t3.
Proof.
  intros H12 H23 key a Ha. destruct (H12 _ _ Ha) as (a' & Ha' & Heq).
  destruct (H23 _ _ Ha') as (a'' & Ha'' & Heq'). exists a''.
  split; [assumption|congruence].
Qed.

Lemma links_kept_insert_fresh (t : gmap (string * string) Attributes)
    (key : string * string) (a : Attributes) :
  t !! key = None -> links_kept t (<[key := a]> t).
Proof.
  intros Hnone key' a' Ha'. exists a'. split; [|reflexivity].
  rewrite lookup_insert_ne; [assumption|]. intros ->. congruence.
Qed.

Lemma links_kept_insert_same (t : gmap (string * string) Attributes)
    (key : string * string) (a0 a : Attributes) :
  t !! key = Some a0 -> full_hash a = full_hash a0 ->
  links_kept t (<[key := a]> t).
Proof.
  intros Hsome Hsame key' a' Ha'. destruct (decide (key = key')) as [<-|Hne].
  - exists a. rewrite lookup_insert_eq. split; congruence.
  - exists a'. rewrite lookup_insert_ne by assumption. auto.
Qed.

(** Writing an item of [hash] under its settled candidate keeps every
    link: the key is free, or holds an item of [hash] already. *)
Lemma links_kept_insert_settled (t : gmap (string * string) Attributes)
    (hash : string) (j : Z) (present : bool) (a : Attributes) :
  settles t hash j present -> full_hash a = hash ->
  links_kept t
    (<[(Js.substring hash 0 PREFIX_LENGTH, Js.substring hash 0 j) := a]> t).
Proof.
  intros Hset Hfull. destruct present; simpl in Hset.
  - destruct Hset as (a0 & Ha0 & Hf0).
    apply (links_kept_insert_same t _ a0); congruence.
  - apply links_kept_insert_fresh. assumption.
Qed.

End Resolver.

(** ** Properties of [findUniqueSubhash] *)

Section ResolverClaims.

(** C4. Whenever [findUniqueSubhash] returns, the id it returns has at
    least [MIN_STORED_ID_LENGTH] characters, is strictly shorter than the
    full hash, and is a prefix of the full hash. *)
Theorem findUniqueSubhash_length_bounds (hash : string) (c c' : Cloud)
    (r : SubHash.t) :
  findUniqueSubhash hash c = (Return r, c') ->
  MIN_STORED_ID_LENGTH <= Js.length (SubHash.uniqueSubHash r) /\
  Js.length (SubHash.uniqueSubHash r) < Js.length hash /\
  String.prefix (SubHash.uniqueSubHash r) hash = true.
Proof.
  intros Hrun. pose proof (findUniqueSubhash_spec hash c) as Hspec.
  rewrite Hrun in Hspec. simpl in Hspec.
  destruct Hspec as (j & Hj & _ & _ & ->). simpl.
  assert (0 <= MIN_STORED_ID_LENGTH) by (unfold MIN_STORED_ID_LENGTH; lia).
  rewrite js_substring_0_length by lia.
  split; [lia|]. split; [lia|]. apply js_substring_0_prefix.
Qed.

Lemma findUniqueSubhash_length_bounds_witness :
  MIN_STORED_ID_LENGTH <= Js.length "abcdef123" /\
  Js.length "abcdef123" < Js.length "abcdef1234567890" /\
  String.prefix "abcdef123" "abcdef1234567890" = true.
Proof.
  apply (findUniqueSubhash_length_bounds "abcdef1234567890" cloud0 cloud0
           (SubHash.mk "abcdef" "abcdef123" false)).
  vm_compute. reflexivity.
Defined.

(** The bound of C4 is not tight: the loop stops at
    [i < hash.length - 1], so two characters of the hash are never used. *)
Lemma findUniqueSubhash_length_tight (hash : string) (c c' : Cloud)
    (r : SubHash.t) :
  findUniqueSubhash hash c = (Return r, c') ->
  Js.length (SubHash.uniqueSubHash r) <= Js.length hash - 2.
Proof.
  intros Hrun. pose proof (findUniqueSubhash_spec hash c) as Hspec.
  rewrite Hrun in Hspec. simpl in Hspec.
  destruct Hspec as (j & Hj & _ & _ & ->). simpl.
  assert (0 <= MIN_STORED_ID_LENGTH) by (unfold MIN_STORED_ID_LENGTH; lia).
  rewrite js_substring_0_length by lia. lia.
Qed.

(** The answer of [findUniqueSubhash] is filed where [getKeyStruct]
    looks for it. *)
Lemma findUniqueSubhash_key (hash : string) (c c' : Cloud) (r : SubHash.t) :
  findUniqueSubhash hash c = (Return r, c') ->
  (SubHash.prefix r, SubHash.uniqueSubHash r)
  = getKeyStruct (SubHash.uniqueSubHash r).
Proof.
  intros Hrun. pose proof (findUniqueSubhash_spec hash c) as Hspec.
  rewrite Hrun in Hspec. simpl in Hspec.
  destruct Hspec as (j & Hj & _ & _ & ->). unfold getKeyStruct. simpl.
  pose proof min_stored_id_length_asserted.
  rewrite js_substring_0_twice by lia. reflexivity.
Qed.

(** C5, as amended. The candidate lengths tried are those with
    [MIN_STORED_ID_LENGTH <= i < len(hash) - 1], in increasing order:
    the resolver fails, and then with the exhaustion error, exactly when
    each of them is held by an item of another hash; otherwise it
    answers the candidate of the least length that is not. *)
Theorem findUniqueSubhash_exhaustion (hash : string) (c : Cloud) :
  (fst (findUniqueSubhash hash c) = Throw (SubhashExhausted hash) <->
   forall i, MIN_STORED_ID_LENGTH <= i < Js.length hash - 1 ->
     claimed_by_other (table c) hash i) /\
  (forall e, fst (findUniqueSubhash hash c) = Throw e ->
     e = SubhashExhausted hash) /\
  (forall r, fst (findUniqueSubhash hash c) = Return r ->
     exists i, MIN_STORED_ID_LENGTH <= i < Js.length hash - 1 /\
       SubHash.uniqueSubHash r = Js.substring hash 0 i /\
       (forall k, MIN_STORED_ID_LENGTH <= k < i ->
          claimed_by_other (table c) hash k) /\
       ~ claimed_by_other (table c) hash i).
Proof.
  pose proof (findUniqueSubhash_spec hash c) as Hspec.
  destruct (fst (findUniqueSubhash hash c)) as [r|e].
  - destruct Hspec as (j & Hj & Hbelow & Hset & Hr).
    split; [split; [discriminate|]|split; [discriminate|]].
    + intros Hall. exfalso.
      apply (settles_not_claimed _ _ _ _ Hset). apply Hall. assumption.
    + intros r' [= <-]. exists j. rewrite Hr. simpl.
      repeat split; try lia; try assumption.
      apply (settles_not_claimed _ _ _ _ Hset).
  - destruct Hspec as [-> Hall].
    split; [split; [intros _; assumption|reflexivity]|].
    split; [|discriminate]. intros e [= <-]. reflexivity.
Qed.

(** C5, as the specification words it, fails: with the 9-character id
    taken by another hash, an 11-character hash is rejected although its
    candidate of length 10 = len - 1 is held by nobody. *)
Lemma spec_exhaustion_fails : ~ spec_exhaustion "abcdef12345" collision_cloud.
Proof.
  unfold spec_exhaustion. intros [Hfwd _].
  assert (fst (findUniqueSubhash "abcdef12345" collision_cloud)
          = Throw (SubhashExhausted "abcdef12345")) as Hthrow
    by (vm_compute; reflexivity).
  destruct (Hfwd Hthrow 10) as (a & Ha & _).
  { vm_compute. split; discriminate. }
  vm_compute in Ha. discriminate.
Qed.

(** C10. A hash of at most [MIN_STORED_ID_LENGTH + 1] characters is
    rejected with the exhaustion error whatever the table holds: the
    loop body is never entered. *)
Theorem findUniqueSubhash_short_hash (hash : string) (c : Cloud) :
  Js.length hash <= MIN_STORED_ID_LENGTH + 1 ->
  findUniqueSubhash hash c = (Throw (SubhashExhausted hash), c).
Proof.
  intros Hlen. pose proof (findUniqueSubhash_spec hash c) as Hspec.
  pose proof (findUniqueSubhash_reads hash c) as Hrd.
  destruct (findUniqueSubhash hash c) as [[r|e] c']; simpl in *; subst c'.
  - destruct Hspec as (j & Hj & _). lia.
  - destruct Hspec as [-> _]. reflexivity.
Qed.

Lemma findUniqueSubhash_short_hash_witness :
  findUniqueSubhash "abcdef1234" cloud0
  = (Throw (SubhashExhausted "abcdef1234"), cloud0).
Proof.
  apply (findUniqueSubhash_short_hash "abcdef1234" cloud0).
  cbv [Js.length MIN_STORED_ID_LENGTH]. simpl. lia.
Defined.

(** C6, as amended. On the empty partition the hash
    ["abcdef1234567890"] resolves to the fresh id ["abcdef123"]; once
    that item is stored the same hash resolves to the same id, already
    present; the hash ["abcdefZZZZZZZZZZ"] differs from the stored id
    from its 7th character on, so it does not collide and resolves to
    the fresh 9-character id ["abcdefZZZ"]; a hash sharing the first 9
    characters, ["abcdef123ZZZZZZZ"], does collide at length 9 and is
    extended to ["abcdef123Z"]. *)
Theorem scenario_resolution :
  findUniqueSubhash "abcdef1234567890" cloud0
  = (Return (SubHash.mk "abcdef" "abcdef123" false), cloud0) /\
  findUniqueSubhash "abcdef1234567890" scenario_cloud
  = (Return (SubHash.mk "abcdef" "abcdef123" true), scenario_cloud) /\
  findUniqueSubhash "abcdefZZZZZZZZZZ" scenario_cloud
  = (Return (SubHash.mk "abcdef" "abcdefZZZ" false), scenario_cloud) /\
  findUniqueSubhash "abcdef123ZZZZZZZ" scenario_cloud
  = (Return (SubHash.mk "abcdef" "abcdef123Z" false), scenario_cloud).
Proof. repeat split; vm_compute; reflexivity. Qed.

(** C6, as the specification words it, fails in its last step: the
    second hash gets an id of 9 characters, not of 10 or more. *)
Lemma spec_scenario_extends_fails : ~ spec_scenario_extends.
Proof.
  intros (r & Hr & Hlen). vm_compute in Hr. injection Hr as <-.
  vm_compute in Hlen. apply Hlen. reflexivity.
Qed.

End ResolverClaims.

(** ** Storing, expanding and counting *)

Section Persistence.

Variable anonymizeIp : string -> string.
Variable storagePrefix : string.
Variable localTZA : Z -> bool -> Z.
Variable s3RejectsFirst : bool.

(** What a successful [storeItem] leaves behind. *)
Lemma storeItem_returns (dynamoFault s3Fault : option Error) (now : Z)
    (item item' : StoredObject.t) (req : Req.t) (c c' : Cloud) :
  storeItem anonymizeIp storagePrefix localTZA s3RejectsFirst dynamoFault s3Fault now item req c
  = (Return item', c') ->
  item' = item /\
  table c' = <[(StoredObject.prefix item, StoredObject.uniqueSubHash item) :=
                mkAttributes (StoredObject.fullHash item) 0
                  (creationIp anonymizeIp req) (Some (setSeconds00 localTZA now)) None]>
               (table c) /\
  bucket c' = <[(storagePrefix, StoredObject.fullHash item) :=
                 StoredObject.config item]> (bucket c).
Proof.
  unfold storeItem, bind, try_catch, promise_all2, logger, ret, throw,
    dynamoDb_putItem, s3_put.
  destruct dynamoFault, s3Fault; simpl; intros [= <- <-]; simpl; auto.
Qed.

(** Whatever the outcome, [storeItem] touches at most the row of its key,
    and writes there the full hash of the item. *)
Lemma storeItem_table (dynamoFault s3Fault : option Error) (now : Z)
    (item : StoredObject.t) (req : Req.t) (c : Cloud) :
  table (snd (storeItem anonymizeIp storagePrefix localTZA s3RejectsFirst dynamoFault s3Fault now
                item req c)) = table c \/
  exists a, full_hash a = StoredObject.fullHash item /\
    table (snd (storeItem anonymizeIp storagePrefix localTZA s3RejectsFirst dynamoFault s3Fault now
                  item req c))
    = <[(StoredObject.prefix item, StoredObject.uniqueSubHash item) := a]>
        (table c).
Proof.
  unfold storeItem, bind, try_catch, promise_all2, logger, ret, throw,
    dynamoDb_putItem, s3_put.
  destruct dynamoFault, s3Fault; simpl; auto; right; eexists;
    (split; [|reflexivity]); reflexivity.
Qed.

(** After a successful [storeItem] of an item whose prefix is the first
    [PREFIX_LENGTH] characters of its short id, [expandId] on that
    short id returns a link whose config is the stored content. *)
Lemma expandId_storeItem (dynamoFault s3Fault : option Error) (now : Z)
    (item item' : StoredObject.t) (req : Req.t) (c c' : Cloud) :
  StoredObject.prefix item
  = Js.substring (StoredObject.uniqueSubHash item) 0 PREFIX_LENGTH ->
  storeItem anonymizeIp storagePrefix localTZA s3RejectsFirst dynamoFault s3Fault now item req c
  = (Return item', c') ->
  exists link,
    expandId storagePrefix (StoredObject.uniqueSubHash item') c'
    = (Return link, c') /\
    ExpandedShortLink.config link = StoredObject.config item.
Proof.
  intros Hkey Hstore.
  destruct (storeItem_returns _ _ _ _ _ _ _ _ Hstore) as (-> & Ht & Hb).
  unfold expandId, bind, dynamoDb_getItem, s3_get, getKeyStruct, ret.
  rewrite <- Hkey, Ht, lookup_insert_eq. simpl.
  rewrite Hb, lookup_insert_eq. eexists. split; reflexivity.
Qed.

(** C3. Round trip: when the item that the store operation builds for a
    content, from the answer of [findUniqueSubhash] for its hash, has
    been stored by a [storeItem] that returned, [expandId] on the short
    id returns a link whose config is that content, as it was put. *)
Theorem storeItem_round_trip (dynamoFault s3Fault : option Error) (now : Z)
    (hash config : string) (req : Req.t) (c c1 c2 : Cloud) (r : SubHash.t)
    (item' : StoredObject.t) :
  findUniqueSubhash hash c = (Return r, c1) ->
  storeItem anonymizeIp storagePrefix localTZA s3RejectsFirst dynamoFault
    s3Fault now
    (StoredObject.mk (SubHash.prefix r) (SubHash.uniqueSubHash r) hash config)
    req c1 = (Return item', c2) ->
  exists link,
    expandId storagePrefix (StoredObject.uniqueSubHash item') c2
    = (Return link, c2) /\
    ExpandedShortLink.config link = config.
Proof.
  intros Hresolve Hstore.
  pose proof (findUniqueSubhash_key hash c c1 r Hresolve) as Hkey.
  unfold getKeyStruct in Hkey. injection Hkey as Hkey.
  apply (expandId_storeItem dynamoFault s3Fault now
           (StoredObject.mk (SubHash.prefix r) (SubHash.uniqueSubHash r) hash
              config) item' req c1 c2); [exact Hkey|exact Hstore].
Qed.

Lemma error_messages_differ (id : string) :
  error_message (NotInLinksTable id) <> error_message (NotInStorage id).
Proof.
  simpl. intros Hm. injection Hm as Hm.
  induction id as [|x id IH]; simpl in Hm; [discriminate|].
  injection Hm as Hm. auto.
Qed.

(** C7. [expandId] rejects with the links-table error exactly when the
    table has no item under the key of the id, with the storage error
    exactly when it has one whose full hash names no object of the
    bucket, and returns in the remaining case; the two errors differ,
    and so do their messages. *)
Theorem expandId_failures (id : string) (c : Cloud) :
  (fst (expandId storagePrefix id c) = Throw (NotInLinksTable id) <->
   table c !! getKeyStruct id = None) /\
  (fst (expandId storagePrefix id c) = Throw (NotInStorage id) <->
   exists a, table c !! getKeyStruct id = Some a /\
             bucket c !! (storagePrefix, full_hash a) = None) /\
  ((exists link, fst (expandId storagePrefix id c) = Return link) <->
   exists a data, table c !! getKeyStruct id = Some a /\
                  bucket c !! (storagePrefix, full_hash a) = Some data) /\
  NotInLinksTable id <> NotInStorage id /\
  error_message (NotInLinksTable id) <> error_message (NotInStorage id).
Proof.
  split; [|split; [|split; [|split; [discriminate|apply error_messages_differ]]]];
    unfold expandId, bind, dynamoDb_getItem, s3_get, ret, throw; simpl;
    destruct (table c !! getKeyStruct id) as [a|] eqn:Ht; simpl;
    try destruct (bucket c !! (storagePrefix, full_hash a)) as [data|] eqn:Hb;
    simpl; split; try discriminate; try (intros _; eauto; fail).
  - intros (a' & [= <-] & Hb'). congruence.
  - intros (a' & Ha' & _). discriminate.
  - intros [link Hl]. discriminate.
  - intros (a' & data & [= <-] & Hb'). congruence.
  - intros [link Hl]. discriminate.
  - intros (a' & data & Ha' & _). discriminate.
Qed.

(** C9. [incrementViewCount] returns normally for every id and every
    behaviour of the update: a rejected call, a key without item, or a
    successful increment. *)
Theorem incrementViewCount_returns (fault : option Error) (id : string)
    (c : Cloud) :
  exists c', incrementViewCount fault id c = (Return tt, c').
Proof.
  unfold incrementViewCount, try_catch, dynamoDb_updateItem, logger.
  destruct fault as [e|]; simpl; [eauto|].
  destruct (table c !! getKeyStruct id); simpl; eauto.
Qed.

(** A non-empty [X-Forwarded-For] header without a comma past its first
    character is written as it came. *)
Lemma creationIp_forwarded (req : Req.t) (header : string) :
  Req.get req "X-Forwarded-For" = Some header -> header <> EmptyString ->
  Js.indexOf header "," <= 0 ->
  creationIp anonymizeIp req = header.
Proof.
  intros Hget Hne Hcomma. unfold creationIp. rewrite Hget.
  destruct header as [|x header]; [congruence|]. simpl Js.or_else.
  destruct (Z.ltb_spec 0 (Js.indexOf (String x header) ",")); [lia|].
  reflexivity.
Qed.

(** Without the header the address of the request goes through
    [anonymizeIp]. *)
Lemma creationIp_direct (req : Req.t) :
  Req.get req "X-Forwarded-For" = None ->
  Js.indexOf (anonymizeIp (Req.ip req)) "," <= 0 ->
  creationIp anonymizeIp req = anonymizeIp (Req.ip req).
Proof.
  intros Hget Hcomma. unfold creationIp. rewrite Hget. simpl Js.or_else.
  destruct (Z.ltb_spec 0 (Js.indexOf (anonymizeIp (Req.ip req)) ","));
    [lia|reflexivity].
Qed.

(** With a proxy chain the client address, up to the first comma, goes
    through [anonymizeIp]. *)
Lemma creationIp_chained :
  creationIp anonymizeIp chained_req
  = String.append (anonymizeIp "192.168.1.77") ", 10.1.1.1".
Proof. reflexivity. Qed.

(** C8 fails on the code. For a request whose [X-Forwarded-For] header
    is the single address ["192.168.1.77"], the [creation_ip] that
    [storeItem] writes is that very string, whatever [anonymizeIp]
    does: the anonymizer is never applied. *)
Theorem storeItem_forwarded_ip_raw (now : Z) (item : StoredObject.t) (c : Cloud) :
  exists a,
    table (snd (storeItem anonymizeIp storagePrefix localTZA s3RejectsFirst None None now item
                  forwarded_req c))
    !! (StoredObject.prefix item, StoredObject.uniqueSubHash item) = Some a /\
    creation_ip a = "192.168.1.77".
Proof.
  eexists. split.
  - unfold storeItem, bind, try_catch, promise_all2, logger, ret,
      dynamoDb_putItem, s3_put. simpl. apply lookup_insert_eq.
  - reflexivity.
Qed.

End Persistence.

(** ** The persistence properties on the worked scenarios *)

Section PersistenceScenarios.

Lemma storeItem_round_trip_witness :
  exists link,
    expandId "links/" "abcdef123" scenario_cloud = (Return link, scenario_cloud) /\
    ExpandedShortLink.config link = "the config"%string.
Proof.
  apply (storeItem_round_trip sample_anonymizeIp "links/" utc_zone false
           None None 1530000012345 "abcdef1234567890" "the config" direct_req
           cloud0 cloud0 scenario_cloud (SubHash.mk "abcdef" "abcdef123" false)
           scenario_item).
  - vm_compute. reflexivity.
  - vm_compute. reflexivity.
Defined.

End PersistenceScenarios.

(** ** Sequences of store requests *)

Section StoreSequence.

Variable anonymizeIp : string -> string.
Variable storagePrefix : string.
Variable localTZA : Z -> bool -> Z.

Lemma allocated_kept (t t' : gmap (string * string) Attributes)
    (hash id : string) :
  links_kept t t' -> allocated t hash id -> allocated t' hash id.
Proof.
  intros Hk (j & Hj & Hid & Hbelow & Hset). exists j.
  split; [assumption|]. split; [assumption|]. split.
  - intros k Hkj. apply (claimed_by_other_kept t t'); auto.
  - apply (settles_present_kept t t'); assumption.
Qed.

(** A short id is filed under the partition key of its hash, so within
    one table it belongs to one hash only. *)
Lemma allocated_inj (t : gmap (string * string) Attributes)
    (hash1 hash2 id : string) :
  allocated t hash1 id -> allocated t hash2 id -> hash1 = hash2.
Proof.
  intros (j1 & Hj1 & Hid1 & _ & (a1 & Ha1 & Hf1))
         (j2 & Hj2 & Hid2 & _ & (a2 & Ha2 & Hf2)).
  assert (Js.substring hash1 0 PREFIX_LENGTH = Js.substring hash2 0 PREFIX_LENGTH)
    as Hp.
  { pose proof min_stored_id_length_asserted as Hassert.
    rewrite <- (js_substring_0_twice hash1 PREFIX_LENGTH j1),
            <- (js_substring_0_twice hash2 PREFIX_LENGTH j2) by lia.
    congruence. }
  rewrite <- Hid1 in Ha1. rewrite <- Hid2, <- Hp in Ha2. congruence.
Qed.

Lemma allocated_resolves (c : Cloud) (hash id : string) :
  allocated (table c) hash id ->
  findUniqueSubhash hash c =
  (Return (SubHash.mk (Js.substring hash 0 PREFIX_LENGTH) id true), c).
Proof.
  intros (j & Hj & -> & Hbelow & Hset).
  apply findUniqueSubhash_settled; assumption.
Qed.

(** One store request keeps every link of the table, and when it is
    served its answer is the id the table now holds for the hash. *)
Lemma store_spec (rewrite s3RejectsFirst : bool)
    (dynamoFault s3Fault : option Error) (now : Z) (hash config : string)
    (req : Req.t) (c : Cloud) :
  links_kept (table c)
    (table (snd (store anonymizeIp storagePrefix localTZA rewrite s3RejectsFirst dynamoFault s3Fault
                   now hash config req c))) /\
  forall id,
    fst (store anonymizeIp storagePrefix localTZA rewrite s3RejectsFirst dynamoFault s3Fault now
           hash config req c) = Return id ->
    allocated
      (table (snd (store anonymizeIp storagePrefix localTZA rewrite s3RejectsFirst dynamoFault
                     s3Fault now hash config req c))) hash id.
Proof.
  unfold store, bind.
  pose proof (findUniqueSubhash_spec hash c) as Hspec.
  pose proof (findUniqueSubhash_reads hash c) as Hrd.
  destruct (findUniqueSubhash hash c) as [[r|e] c1]; simpl in *; subst c1.
  2: { split; [apply links_kept_refl|discriminate]. }
  destruct Hspec as (j & Hj & Hbelow & Hset & Hr).
  destruct (SubHash.alreadyPresent r && negb rewrite) eqn:Hskip.
  - apply andb_prop in Hskip. destruct Hskip as [Hpresent _].
    rewrite Hpresent in Hset.
    unfold ret. simpl. split; [apply links_kept_refl|].
    intros id [= <-]. rewrite Hr. simpl. exists j. auto.
  - set (item := StoredObject.mk (SubHash.prefix r) (SubHash.uniqueSubHash r)
                   hash config).
    pose proof (storeItem_table anonymizeIp storagePrefix localTZA s3RejectsFirst dynamoFault s3Fault
                  now item req c) as Htable.
    pose proof (storeItem_returns anonymizeIp storagePrefix localTZA s3RejectsFirst dynamoFault
                  s3Fault now item) as Hret.
    assert (forall a, full_hash a = hash ->
              links_kept (table c)
                (<[(SubHash.prefix r, SubHash.uniqueSubHash r) := a]> (table c)))
      as Hwrite.
    { intros a Ha. rewrite Hr. simpl.
      apply (links_kept_insert_settled _ _ _ _ _ Hset Ha). }
    destruct (storeItem anonymizeIp storagePrefix localTZA s3RejectsFirst dynamoFault s3Fault now
                item req c) as [[item'|e] c'] eqn:Hstore; simpl in *.
    + destruct (Hret item' req c c' Hstore) as (-> & Ht & _).
      assert (links_kept (table c) (table c')) as Hkept.
      { rewrite Ht. apply Hwrite. reflexivity. }
      split; [assumption|]. intros id [= <-]. exists j.
      split; [assumption|]. split; [rewrite Hr; reflexivity|]. split.
      * intros k Hk. apply (claimed_by_other_kept (table c)); auto.
      * simpl. rewrite Ht, Hr. simpl. rewrite lookup_insert_eq.
        eexists. split; reflexivity.
    + split; [|discriminate].
      destruct Htable as [->|(a & Ha & ->)]; [apply links_kept_refl|].
      apply Hwrite. assumption.
Qed.

(** After a run of store requests every earlier link is still there, and
    every request served has its id in the final table. *)
Lemma store_all_spec (calls : list StoreCall) (c : Cloud) :
  links_kept (table c)
    (table (snd (store_all anonymizeIp storagePrefix localTZA calls c))) /\
  (forall hash id,
     (hash, id) ∈ fst (store_all anonymizeIp storagePrefix localTZA calls c) ->
     allocated (table (snd (store_all anonymizeIp storagePrefix localTZA calls c)))
       hash id) /\
  sublist (fst <$> fst (store_all anonymizeIp storagePrefix localTZA calls c))
          (call_hash <$> calls).
Proof.
  revert c. induction calls as [|call rest IH]; intros c; simpl.
  - split; [apply links_kept_refl|]. split; [|constructor].
    intros hash id Hin. apply elem_of_nil in Hin. contradiction.
  - unfold store_call.
    destruct (store_spec (call_rewrite call) (call_s3RejectsFirst call)
              (call_dynamoFault call)
                (call_s3Fault call) (call_now call) (call_hash call)
                (call_config call) (call_req call) c) as [Hkept Halloc].
    destruct (store anonymizeIp storagePrefix localTZA (call_rewrite call)
                (call_s3RejectsFirst call)
                (call_dynamoFault call) (call_s3Fault call) (call_now call)
                (call_hash call) (call_config call) (call_req call) c)
      as [[id|e] c1];
      simpl in *; destruct (IH c1) as (Hkept' & Halloc' & Hsub).
    + destruct (store_all anonymizeIp storagePrefix localTZA rest c1)
        as [served c2]; simpl in *.
      split; [apply (links_kept_trans _ (table c1)); assumption|]. split.
      * intros hash id' Hin. apply elem_of_cons in Hin.
        destruct Hin as [[= -> ->]|Hin]; [|auto].
        apply (allocated_kept (table c1)); auto.
      * apply sublist_skip. assumption.
    + split; [apply (links_kept_trans _ (table c1)); assumption|]. split.
      * assumption.
      * apply sublist_cons. assumption.
Qed.

Lemma NoDup_snd_of_fst {A B : Type} (l : list (A * B)) :
  NoDup (fst <$> l) ->
  (forall a1 a2 b, (a1, b) ∈ l -> (a2, b) ∈ l -> a1 = a2) ->
  NoDup (snd <$> l).
Proof.
  induction l as [|[a b] l IH]; simpl; intros Hnd Hinj; [constructor|].
  apply NoDup_cons in Hnd. destruct Hnd as [Hnotin Hnd].
  apply NoDup_cons. split.
  - intros Hin. apply list_elem_of_fmap in Hin.
    destruct Hin as ([a' b'] & Hb & Hin). simpl in Hb. subst b'.
    apply Hnotin. apply list_elem_of_fmap. exists (a', b).
    split; [|assumption]. simpl.
    apply (Hinj a a' b); [left|right; assumption].
  - apply IH; [assumption|].
    intros a1 a2 b' H1 H2. apply (Hinj a1 a2 b'); right; assumption.
Qed.

(** Among the requests served by one run, an id answers one hash only. *)
Lemma store_all_id_owner (calls : list StoreCall) (c : Cloud)
    (hash1 hash2 id : string) :
  (hash1, id) ∈ fst (store_all anonymizeIp storagePrefix localTZA calls c) ->
  (hash2, id) ∈ fst (store_all anonymizeIp storagePrefix localTZA calls c) ->
  hash1 = hash2.
Proof.
  intros H1 H2.
  destruct (store_all_spec calls c) as (_ & Halloc & _).
  apply (allocated_inj
           (table (snd (store_all anonymizeIp storagePrefix localTZA calls c)))
           hash1 hash2 id); apply Halloc; assumption.
Qed.

(** C1. Store requests served one after the other, for pairwise
    distinct full hashes, are answered with pairwise distinct short
    ids; and no id of the run answers two different hashes. *)
Theorem store_all_distinct_ids (calls : list StoreCall) (c : Cloud) :
  NoDup (call_hash <$> calls) ->
  NoDup (snd <$> fst (store_all anonymizeIp storagePrefix localTZA calls c)) /\
  (forall hash1 hash2 id,
     (hash1, id) ∈ fst (store_all anonymizeIp storagePrefix localTZA calls c) ->
     (hash2, id) ∈ fst (store_all anonymizeIp storagePrefix localTZA calls c) ->
     hash1 = hash2).
Proof.
  intros Hnd. split; [|apply store_all_id_owner].
  apply NoDup_snd_of_fst; [|apply store_all_id_owner].
  destruct (store_all_spec calls c) as (_ & _ & Hsub).
  eapply sublist_NoDup; eassumption.
Qed.

(** C2. Once a store request for a hash has been answered with an id,
    and whatever store requests are served afterwards,
    [findUniqueSubhash] on that hash answers the same id, as already
    present. *)
Theorem findUniqueSubhash_idempotent (call : StoreCall)
    (calls : list StoreCall) (c0 c1 : Cloud) (id : string) :
  store_call anonymizeIp storagePrefix localTZA call c0 = (Return id, c1) ->
  findUniqueSubhash (call_hash call)
    (snd (store_all anonymizeIp storagePrefix localTZA calls c1))
  = (Return (SubHash.mk (Js.substring (call_hash call) 0 PREFIX_LENGTH) id true),
     snd (store_all anonymizeIp storagePrefix localTZA calls c1)).
Proof.
  intros Hstore. apply allocated_resolves.
  destruct (store_all_spec calls c1) as (Hkept & _ & _).
  apply (allocated_kept (table c1)); [assumption|].
  unfold store_call in Hstore.
  destruct (store_spec (call_rewrite call) (call_s3RejectsFirst call)
              (call_dynamoFault call)
              (call_s3Fault call) (call_now call) (call_hash call)
              (call_config call) (call_req call) c0) as [_ Halloc].
  rewrite Hstore in Halloc. simpl in Halloc. apply Halloc. reflexivity.
Qed.

End StoreSequence.

(** ** The store sequence on the worked scenario *)

Section StoreScenarios.

Lemma store_all_distinct_ids_witness :
  NoDup (snd <$> fst (store_all sample_anonymizeIp "links/" utc_zone
                        [first_call; second_call] cloud0)) /\
  (forall hash1 hash2 id,
     (hash1, id) ∈ fst (store_all sample_anonymizeIp "links/" utc_zone
                          [first_call; second_call] cloud0) ->
     (hash2, id) ∈ fst (store_all sample_anonymizeIp "links/" utc_zone
                          [first_call; second_call] cloud0) ->
     hash1 = hash2).
Proof.
  apply (store_all_distinct_ids sample_anonymizeIp "links/" utc_zone
           [first_call; second_call] cloud0).
  apply (bool_decide_unpack _). vm_compute. reflexivity.
Defined.

Lemma findUniqueSubhash_idempotent_witness :
  findUniqueSubhash "abcdef1234567890"
    (snd (store_all sample_anonymizeIp "links/" utc_zone [second_call] scenario_cloud))
  = (Return (SubHash.mk "abcdef" "abcdef123" true),
     snd (store_all sample_anonymizeIp "links/" utc_zone [second_call] scenario_cloud)).
Proof.
  apply (findUniqueSubhash_idempotent sample_anonymizeIp "links/" utc_zone first_call
           [second_call] cloud0 scenario_cloud "abcdef123").
  vm_compute. reflexivity.
Defined.

End StoreScenarios.

(** * Further properties of the methods *)

(** ** What [storeItem] writes, and what it leaves alone *)

Section StoreItemFacts.

Variable anonymizeIp : string -> string.
Variable storagePrefix : string.
Variable localTZA : Z -> bool -> Z.
Variable s3RejectsFirst : bool.

(** [storeItem] run to its end, case by case on the two writes. *)
Lemma storeItem_run (dynamoFault s3Fault : option Error) (now : Z)
    (item : StoredObject.t) (req : Req.t) (c : Cloud) :
  storeItem anonymizeIp storagePrefix localTZA s3RejectsFirst dynamoFault s3Fault now item req c =
  let key := (StoredObject.prefix item, StoredObject.uniqueSubHash item) in
  let blob := (storagePrefix, StoredObject.fullHash item) in
  let line := String.append "Storing item " (StoredObject.prefix item) in
  match dynamoFault, s3Fault with
  | None, None =>
      (Return item,
       mkCloud (<[key := mkAttributes (StoredObject.fullHash item) 0
                        (creationIp anonymizeIp req)
                        (Some (setSeconds00 localTZA now)) None]> (table c))
         (<[blob := StoredObject.config item]> (bucket c)) (line :: logged c))
  | None, Some e =>
      (Throw e,
       mkCloud (<[key := mkAttributes (StoredObject.fullHash item) 0
                        (creationIp anonymizeIp req)
                        (Some (setSeconds00 localTZA now)) None]> (table c)) (bucket c)
         ("Unable to store item"%string :: line :: logged c))
  | Some e, None =>
      (Throw e,
       mkCloud (table c) (<[blob := StoredObject.config item]> (bucket c))
         ("Unable to store item"%string :: line :: logged c))
  | Some e1, Some e2 =>
      (Throw (if s3RejectsFirst then e2 else e1),
       mkCloud (table c) (bucket c)
         ("Unable to store item"%string :: line :: logged c))
  end.
Proof. destruct dynamoFault, s3Fault; reflexivity. Qed.

(** X1. [storeItem] returns the item it was given when both writes go
    through; when one write is rejected it rejects with the error of
    that write, unchanged, and when both are rejected with the error of
    the rejection that settles first; in either case after logging that
    the item could not be stored. *)
Theorem storeItem_outcome (dynamoFault s3Fault : option Error) (now : Z)
    (item : StoredObject.t) (req : Req.t) (c : Cloud) :
  fst (storeItem anonymizeIp storagePrefix localTZA s3RejectsFirst dynamoFault
         s3Fault now item req c)
  = match dynamoFault, s3Fault with
    | None, None => Return item
    | Some e, None => Throw e
    | None, Some e => Throw e
    | Some e1, Some e2 => Throw (if s3RejectsFirst then e2 else e1)
    end /\
  logged (snd (storeItem anonymizeIp storagePrefix localTZA s3RejectsFirst
                 dynamoFault s3Fault now item req c))
  = match dynamoFault, s3Fault with
    | None, None => []
    | _, _ => ["Unable to store item"%string]
    end ++ String.append "Storing item " (StoredObject.prefix item) :: logged c.
Proof.
  rewrite storeItem_run. destruct dynamoFault, s3Fault; split; reflexivity.
Qed.

(** X2. No rollback: when only the table write is rejected the blob is
    in the bucket all the same and the table is as before; when only the
    bucket write is rejected the row is in the table all the same and
    the bucket is as before. *)
Theorem storeItem_no_rollback (e : Error) (now : Z) (item : StoredObject.t)
    (req : Req.t) (c : Cloud) :
  (table (snd (storeItem anonymizeIp storagePrefix localTZA s3RejectsFirst (Some e) None now item req c))
   = table c /\
   bucket (snd (storeItem anonymizeIp storagePrefix localTZA s3RejectsFirst (Some e) None now item req c))
   !! (storagePrefix, StoredObject.fullHash item)
   = Some (StoredObject.config item)) /\
  (is_Some
     (table (snd (storeItem anonymizeIp storagePrefix localTZA s3RejectsFirst None (Some e) now item
                    req c))
      !! (StoredObject.prefix item, StoredObject.uniqueSubHash item)) /\
   bucket (snd (storeItem anonymizeIp storagePrefix localTZA s3RejectsFirst None (Some e) now item req c))
   = bucket c).
Proof.
  rewrite !storeItem_run. simpl. repeat split.
  - apply lookup_insert_eq.
  - rewrite lookup_insert_eq. eauto.
Qed.

(** X3. Whenever the table write goes through, the row under the key of
    the item carries the full hash of the item, a click count of 0 and
    no named metadata.  Its creation date is the start of the minute of
    local time that holds [now]: where the zone has the same offset at
    [now] and at that minute, the date read in local time has its
    seconds and milliseconds at 0, is not after [now] and is less than
    a minute before it. *)
Theorem storeItem_row (s3Fault : option Error) (now offset : Z)
    (item : StoredObject.t) (req : Req.t) (c : Cloud) :
  localTZA now true = offset ->
  localTZA (now + offset - (now + offset) mod 60000) false = offset ->
  exists a d,
    table (snd (storeItem anonymizeIp storagePrefix localTZA s3RejectsFirst
                  None s3Fault now item req c))
    !! (StoredObject.prefix item, StoredObject.uniqueSubHash item) = Some a /\
    full_hash a = StoredObject.fullHash item /\
    stats_clicks a = 0 /\
    named_metadata a = None /\
    creation_date a = Some d /\
    (d + offset) mod 60000 = 0 /\ d <= now < d + 60000.
Proof.
  intros Hnow Hdate.
  exists (mkAttributes (StoredObject.fullHash item) 0
            (creationIp anonymizeIp req) (Some (setSeconds00 localTZA now)) None),
         (setSeconds00 localTZA now).
  rewrite storeItem_run.
  split; [destruct s3Fault; simpl; apply lookup_insert_eq|].
  repeat split; unfold setSeconds00; rewrite Hnow, Hdate.
  - replace (now + offset - (now + offset) mod 60000 - offset + offset)
      with (now + offset - (now + offset) mod 60000) by lia.
    rewrite Zminus_mod, Zmod_mod, Z.sub_diag. reflexivity.
  - pose proof (Z.mod_pos_bound (now + offset) 60000). lia.
  - pose proof (Z.mod_pos_bound (now + offset) 60000). lia.
Qed.

(** X4. Whatever its outcome, [storeItem] leaves every row under another
    key and every blob under another name as they were. *)
Theorem storeItem_frame (dynamoFault s3Fault : option Error) (now : Z)
    (item : StoredObject.t) (req : Req.t) (c : Cloud)
    (key blob : string * string) :
  key <> (StoredObject.prefix item, StoredObject.uniqueSubHash item) ->
  blob <> (storagePrefix, StoredObject.fullHash item) ->
  table (snd (storeItem anonymizeIp storagePrefix localTZA s3RejectsFirst dynamoFault s3Fault now
                item req c)) !! key = table c !! key /\
  bucket (snd (storeItem anonymizeIp storagePrefix localTZA s3RejectsFirst dynamoFault s3Fault now
                 item req c)) !! blob = bucket c !! blob.
Proof.
  intros Hkey Hblob. rewrite storeItem_run.
  destruct dynamoFault, s3Fault; simpl; split;
    try reflexivity; apply lookup_insert_ne; congruence.
Qed.

End StoreItemFacts.

(** ** Storing and expanding together *)

Section StoreExpandFacts.

Variable anonymizeIp : string -> string.
Variable storagePrefix : string.
Variable localTZA : Z -> bool -> Z.
Variable s3RejectsFirst : bool.

(** [expandId] run to its end. *)
Lemma expandId_run (id : string) (c : Cloud) :
  expandId storagePrefix id c =
  (match table c !! getKeyStruct id with
   | None => Throw (NotInLinksTable id)
   | Some a =>
       match bucket c !! (storagePrefix, full_hash a) with
       | None => Throw (NotInStorage id)
       | Some data =>
           Return (ExpandedShortLink.mk data (named_metadata a) (creation_date a))
       end
   end, c).
Proof.
  unfold expandId, bind, dynamoDb_getItem, s3_get, ret, throw. simpl.
  destruct (table c !! getKeyStruct id) as [a|]; simpl; [|reflexivity].
  destruct (bucket c !! (storagePrefix, full_hash a)); reflexivity.
Qed.

(** X5. The table write is unconditional, so the last writer wins: when
    a second item, of another hash, is stored under the key of a first
    one, [expandId] on the shared id, which returned the content of the
    first item, returns the content and the creation minute of the
    second; the blob of the first item stays in the bucket, with no row
    left that names it under this id. *)
Theorem storeItem_last_write_wins (now1 now2 : Z)
    (item1 item2 : StoredObject.t) (req1 req2 : Req.t) (c : Cloud) :
  StoredObject.prefix item1 = StoredObject.prefix item2 ->
  StoredObject.uniqueSubHash item1 = StoredObject.uniqueSubHash item2 ->
  StoredObject.prefix item2
  = Js.substring (StoredObject.uniqueSubHash item2) 0 PREFIX_LENGTH ->
  StoredObject.fullHash item1 <> StoredObject.fullHash item2 ->
  fst (expandId storagePrefix (StoredObject.uniqueSubHash item1)
         (snd (storeItem anonymizeIp storagePrefix localTZA s3RejectsFirst None None now1 item1
                 req1 c)))
  = Return (ExpandedShortLink.mk (StoredObject.config item1) None
              (Some (setSeconds00 localTZA now1))) /\
  fst (expandId storagePrefix (StoredObject.uniqueSubHash item1)
         (snd (storeItem anonymizeIp storagePrefix localTZA s3RejectsFirst None None now2 item2 req2
                 (snd (storeItem anonymizeIp storagePrefix localTZA s3RejectsFirst None None now1
                         item1 req1 c)))))
  = Return (ExpandedShortLink.mk (StoredObject.config item2) None
              (Some (setSeconds00 localTZA now2))) /\
  bucket
    (snd (storeItem anonymizeIp storagePrefix localTZA s3RejectsFirst None None now2 item2 req2
            (snd (storeItem anonymizeIp storagePrefix localTZA s3RejectsFirst None None now1 item1
                    req1 c))))
  !! (storagePrefix, StoredObject.fullHash item1)
  = Some (StoredObject.config item1).
Proof.
  intros Hp Hid Hkey Hne. rewrite !expandId_run, !storeItem_run. simpl.
  unfold getKeyStruct. rewrite Hp, Hid, <- Hkey, !lookup_insert_eq. simpl.
  rewrite ?lookup_insert_eq. split; [reflexivity|]. split; [reflexivity|].
  rewrite lookup_insert_ne by congruence. apply lookup_insert_eq.
Qed.

(** X6. A row without its blob: when the bucket write of [storeItem] is
    rejected and the bucket held nothing under the full hash, the row is
    there all the same, and [expandId] on the id rejects with the
    storage error, not with the links-table error. *)
Theorem expandId_dangling_row (e : Error) (now : Z) (item : StoredObject.t)
    (req : Req.t) (c : Cloud) :
  StoredObject.prefix item
  = Js.substring (StoredObject.uniqueSubHash item) 0 PREFIX_LENGTH ->
  bucket c !! (storagePrefix, StoredObject.fullHash item) = None ->
  expandId storagePrefix (StoredObject.uniqueSubHash item)
    (snd (storeItem anonymizeIp storagePrefix localTZA s3RejectsFirst None (Some e) now item req c))
  = (Throw (NotInStorage (StoredObject.uniqueSubHash item)),
     snd (storeItem anonymizeIp storagePrefix localTZA s3RejectsFirst None (Some e) now item req c)).
Proof.
  intros Hkey Hblob. rewrite expandId_run, storeItem_run. simpl.
  unfold getKeyStruct. rewrite <- Hkey, lookup_insert_eq. simpl.
  rewrite Hblob. reflexivity.
Qed.

(** X7. A link that expands keeps expanding to the same answer when
    another item is stored, whatever the outcome of that store, as long
    as the other item has another key and another full hash. *)
Theorem expandId_stable (dynamoFault s3Fault : option Error) (now : Z)
    (item : StoredObject.t) (req : Req.t) (c : Cloud) (id : string)
    (a : Attributes) (link : ExpandedShortLink.t) :
  table c !! getKeyStruct id = Some a ->
  fst (expandId storagePrefix id c) = Return link ->
  (StoredObject.prefix item, StoredObject.uniqueSubHash item) <> getKeyStruct id ->
  StoredObject.fullHash item <> full_hash a ->
  fst (expandId storagePrefix id
         (snd (storeItem anonymizeIp storagePrefix localTZA s3RejectsFirst dynamoFault s3Fault now
                 item req c)))
  = Return link.
Proof.
  intros Hrow Hlink Hkey Hhash. rewrite expandId_run in *. simpl in *.
  destruct (storeItem_frame anonymizeIp storagePrefix localTZA s3RejectsFirst dynamoFault s3Fault now
              item req c (getKeyStruct id) (storagePrefix, full_hash a))
    as [Ht Hb]; [congruence|congruence|].
  rewrite Ht, Hrow. rewrite Hrow in Hlink. rewrite Hb. exact Hlink.
Qed.

(** X8. Resolve, store, expand, resolve again: when [findUniqueSubhash]
    answers for a hash and the item built from its answer is stored,
    [expandId] on the id returns the stored content with the creation
    minute and no special metadata, and [findUniqueSubhash] on the hash
    now answers the same id as already present. *)
Theorem resolve_store_expand (now : Z) (hash config : string) (req : Req.t)
    (c c1 : Cloud) (r : SubHash.t) :
  findUniqueSubhash hash c = (Return r, c1) ->
  expandId storagePrefix (SubHash.uniqueSubHash r)
    (snd (storeItem anonymizeIp storagePrefix localTZA s3RejectsFirst None None now
            (StoredObject.mk (SubHash.prefix r) (SubHash.uniqueSubHash r)
               hash config) req c1))
  = (Return (ExpandedShortLink.mk config None (Some (setSeconds00 localTZA now))),
     snd (storeItem anonymizeIp storagePrefix localTZA s3RejectsFirst None None now
            (StoredObject.mk (SubHash.prefix r) (SubHash.uniqueSubHash r)
               hash config) req c1)) /\
  findUniqueSubhash hash
    (snd (storeItem anonymizeIp storagePrefix localTZA s3RejectsFirst None None now
            (StoredObject.mk (SubHash.prefix r) (SubHash.uniqueSubHash r)
               hash config) req c1))
  = (Return (SubHash.mk (SubHash.prefix r) (SubHash.uniqueSubHash r) true),
     snd (storeItem anonymizeIp storagePrefix localTZA s3RejectsFirst None None now
            (StoredObject.mk (SubHash.prefix r) (SubHash.uniqueSubHash r)
               hash config) req c1)).
Proof.
  intros Hrun.
  pose proof (findUniqueSubhash_key hash c c1 r Hrun) as Hkey.
  pose proof (findUniqueSubhash_spec hash c) as Hspec.
  pose proof (findUniqueSubhash_reads hash c) as Hrd.
  rewrite Hrun in Hspec, Hrd. simpl in Hspec, Hrd. subst c1.
  destruct Hspec as (j & Hj & Hbelow & Hset & Hr).
  rewrite storeItem_run. simpl. split.
  - rewrite expandId_run. simpl. rewrite <- Hkey, lookup_insert_eq. simpl.
    rewrite lookup_insert_eq. reflexivity.
  - rewrite Hr. simpl. apply findUniqueSubhash_settled; simpl.
    + assumption.
    + intros k Hk.
      apply (claimed_by_other_kept (table c)); [|auto].
      apply (links_kept_insert_settled _ _ _ _ _ Hset). reflexivity.
    + rewrite lookup_insert_eq. eexists. split; reflexivity.
Qed.


End StoreExpandFacts.

(** ** The view counter *)

Section ViewCountFacts.

Variable storagePrefix : string.

(** [incrementViewCount] run to its end. *)
Lemma incrementViewCount_run (fault : option Error) (id : string) (c : Cloud) :
  incrementViewCount fault id c =
  let line := String.append "Error when incrementing view count for " id in
  match fault, table c !! getKeyStruct id with
  | None, Some a =>
      (Return tt,
       mkCloud (<[getKeyStruct id :=
                   mkAttributes (full_hash a) (stats_clicks a + 1)
                     (creation_ip a) (creation_date a) (named_metadata a)]>
                  (table c))
         (bucket c) (logged c))
  | _, _ => (Return tt, mkCloud (table c) (bucket c) (line :: logged c))
  end.
Proof.
  unfold incrementViewCount, try_catch, dynamoDb_updateItem, logger.
  destruct fault; simpl; [reflexivity|].
  destruct (table c !! getKeyStruct id); reflexivity.
Qed.

(** X9. When the table answers and holds a row for the id,
    [incrementViewCount] adds exactly one click to that row, keeps its
    other attributes, every other row and the bucket, and logs
    nothing. *)
Theorem incrementViewCount_counts (id : string) (c : Cloud) (a : Attributes) :
  table c !! getKeyStruct id = Some a ->
  table (snd (incrementViewCount None id c)) !! getKeyStruct id
  = Some (mkAttributes (full_hash a) (stats_clicks a + 1) (creation_ip a)
            (creation_date a) (named_metadata a)) /\
  (forall key, key <> getKeyStruct id ->
     table (snd (incrementViewCount None id c)) !! key = table c !! key) /\
  bucket (snd (incrementViewCount None id c)) = bucket c /\
  logged (snd (incrementViewCount None id c)) = logged c.
Proof.
  intros Hrow. rewrite incrementViewCount_run, Hrow. simpl.
  split; [apply lookup_insert_eq|]. split; [|split; reflexivity].
  intros key Hne. apply lookup_insert_ne. congruence.
Qed.

(** X10. When the update is rejected, or the id has no row, the error is
    swallowed: [incrementViewCount] leaves table and bucket as they
    were, creating no row, and logs one line that names the id. *)
Theorem incrementViewCount_swallows (fault : option Error) (id : string)
    (c : Cloud) :
  is_Some fault \/ table c !! getKeyStruct id = None ->
  table (snd (incrementViewCount fault id c)) = table c /\
  bucket (snd (incrementViewCount fault id c)) = bucket c /\
  logged (snd (incrementViewCount fault id c))
  = String.append "Error when incrementing view count for " id :: logged c.
Proof.
  intros Hfail. rewrite incrementViewCount_run.
  destruct fault as [e|]; simpl; [auto|].
  destruct Hfail as [[e He]|Hnone]; [discriminate|].
  rewrite Hnone. auto.
Qed.

(** X11. [n] visits recorded one after the other add [n] clicks to the
    row of the id and change nothing else of it. *)
Theorem incrementViewCount_times_counts (n : nat) (id : string) (c : Cloud)
    (a : Attributes) :
  table c !! getKeyStruct id = Some a ->
  table (snd (incrementViewCount_times n id c)) !! getKeyStruct id
  = Some (mkAttributes (full_hash a) (stats_clicks a + Z.of_nat n)
            (creation_ip a) (creation_date a) (named_metadata a)).
Proof.
  revert c a. induction n as [|n IH]; intros c a Hrow.
  - simpl. rewrite Hrow, Z.add_0_r. destruct a; reflexivity.
  - cbn [incrementViewCount_times]. unfold bind.
    rewrite incrementViewCount_run, Hrow. cbn iota beta zeta.
    rewrite (IH _ (mkAttributes (full_hash a) (stats_clicks a + 1)
                     (creation_ip a) (creation_date a) (named_metadata a))).
    + simpl. do 2 f_equal. lia.
    + simpl. apply lookup_insert_eq.
Qed.

(** The counter changes neither the keys of the table nor the full hash
    of any row. *)
Lemma incrementViewCount_same_links (fault : option Error) (id : string)
    (c : Cloud) (key : string * string) :
  table (snd (incrementViewCount fault id c)) !! key = table c !! key \/
  exists a, table c !! key = Some a /\
    table (snd (incrementViewCount fault id c)) !! key
    = Some (mkAttributes (full_hash a) (stats_clicks a + 1) (creation_ip a)
              (creation_date a) (named_metadata a)).
Proof.
  rewrite incrementViewCount_run.
  destruct fault as [e|]; simpl; [auto|].
  destruct (table c !! getKeyStruct id) as [a|] eqn:Hrow; simpl; [|auto].
  destruct (decide (getKeyStruct id = key)) as [<-|Hne].
  - right. exists a. split; [assumption|apply lookup_insert_eq].
  - left. apply lookup_insert_ne. assumption.
Qed.

Lemma incrementViewCount_bucket (fault : option Error) (id : string) (c : Cloud) :
  bucket (snd (incrementViewCount fault id c)) = bucket c.
Proof.
  rewrite incrementViewCount_run.
  destruct fault, (table c !! getKeyStruct id); reflexivity.
Qed.

(** X12. Counting a view of any id, whatever becomes of the update,
    changes the answer of [expandId] for no id: the link expands to the
    same content, metadata and creation date, or is rejected with the
    same error. *)
Theorem incrementViewCount_keeps_links (fault : option Error)
    (id id' : string) (c : Cloud) :
  fst (expandId storagePrefix id' (snd (incrementViewCount fault id c)))
  = fst (expandId storagePrefix id' c).
Proof.
  rewrite !expandId_run. simpl. rewrite incrementViewCount_bucket.
  destruct (incrementViewCount_same_links fault id c (getKeyStruct id'))
    as [->|(a & Ha & ->)]; [reflexivity|].
  rewrite Ha. reflexivity.
Qed.

End ViewCountFacts.

(** ** What the resolver depends on *)

Section ResolverFacts.

(** The answer of the resolver carries over to any table on which its
    reading of the candidates stays true. *)
Lemma resolution_transfer (hash : string) (c c' : Cloud) :
  (forall i, claimed_by_other (table c) hash i ->
             claimed_by_other (table c') hash i) ->
  (forall i present, settles (table c) hash i present ->
                     settles (table c') hash i present) ->
  fst (findUniqueSubhash hash c') = fst (findUniqueSubhash hash c).
Proof.
  intros Hclaimed Hsettles.
  pose proof (findUniqueSubhash_spec hash c) as Hspec.
  destruct (fst (findUniqueSubhash hash c)) as [r|e].
  - destruct Hspec as (j & Hj & Hbelow & Hset & ->).
    rewrite (findUniqueSubhash_settled hash c' j (SubHash.alreadyPresent r));
      auto.
  - destruct Hspec as [-> Hall].
    pose proof (findUniqueSubhash_spec hash c') as Hspec'.
    destruct (fst (findUniqueSubhash hash c')) as [r'|e'].
    + destruct Hspec' as (j & Hj & _ & Hset & _). exfalso.
      apply (settles_not_claimed _ _ _ _ Hset). auto.
    + destruct Hspec' as [-> _]. reflexivity.
Qed.

Lemma same_partition_reading (t t' : gmap (string * string) Attributes)
    (hash : string) :
  same_partition t t' (Js.substring hash 0 PREFIX_LENGTH) ->
  (forall i, claimed_by_other t hash i -> claimed_by_other t' hash i) /\
  (forall i present, settles t hash i present -> settles t' hash i present).
Proof.
  intros Hsame. split.
  - intros i (a & Ha & Hne). specialize (Hsame (Js.substring hash 0 i)).
    rewrite Ha in Hsame. simpl in Hsame. unfold claimed_by_other.
    destruct (t' !! _) as [a'|]; [|discriminate].
    injection Hsame as Hsame. exists a'. split; [reflexivity|congruence].
  - intros i present Hset. specialize (Hsame (Js.substring hash 0 i)).
    destruct present; simpl in *.
    + destruct Hset as (a & Ha & Hf). rewrite Ha in Hsame. simpl in Hsame.
      destruct (t' !! _) as [a'|]; [|discriminate].
      injection Hsame as Hsame. exists a'. split; [reflexivity|congruence].
    + rewrite Hset in Hsame. simpl in Hsame.
      destruct (t' !! _); [discriminate|reflexivity].
Qed.

(** X13. [findUniqueSubhash] depends on the table only through the sort
    keys and full hashes of the partition of its hash: on two tables
    that agree there, whatever their other partitions and the other
    attributes of their rows, it gives the same answer or the same
    error. *)
Theorem findUniqueSubhash_partition_scoped (hash : string) (c c' : Cloud) :
  same_partition (table c) (table c') (Js.substring hash 0 PREFIX_LENGTH) ->
  fst (findUniqueSubhash hash c') = fst (findUniqueSubhash hash c).
Proof.
  intros Hsame.
  destruct (same_partition_reading (table c) (table c') hash Hsame).
  apply resolution_transfer; assumption.
Qed.

(** X14. Counting a view of any id, whatever becomes of the update,
    changes the answer of [findUniqueSubhash] for no hash. *)
Theorem incrementViewCount_keeps_resolution (fault : option Error)
    (id hash : string) (c : Cloud) :
  fst (findUniqueSubhash hash (snd (incrementViewCount fault id c)))
  = fst (findUniqueSubhash hash c).
Proof.
  destruct (same_partition_reading (table c)
              (table (snd (incrementViewCount fault id c))) hash).
  - intros subHash.
    destruct (incrementViewCount_same_links fault id c
                (Js.substring hash 0 PREFIX_LENGTH, subHash))
      as [->|(a & Ha & ->)]; [reflexivity|].
    rewrite Ha. reflexivity.
  - apply resolution_transfer; assumption.
Qed.

(** X15. A hash of at least [MIN_STORED_ID_LENGTH + 2] characters whose
    first [MIN_STORED_ID_LENGTH] characters are the sort key of no row
    of its partition resolves to exactly those characters, as a new
    id. *)
Theorem findUniqueSubhash_fresh (hash : string) (c : Cloud) :
  MIN_STORED_ID_LENGTH + 2 <= Js.length hash ->
  table c !! (Js.substring hash 0 PREFIX_LENGTH,
              Js.substring hash 0 MIN_STORED_ID_LENGTH) = None ->
  findUniqueSubhash hash c
  = (Return (SubHash.mk (Js.substring hash 0 PREFIX_LENGTH)
               (Js.substring hash 0 MIN_STORED_ID_LENGTH) false), c).
Proof.
  intros Hlen Hfree. apply findUniqueSubhash_settled.
  - lia.
  - intros k Hk. lia.
  - exact Hfree.
Qed.

(** X16. The key of an id: the sort key is the id itself, and the
    partition key is a prefix of the id of [PREFIX_LENGTH] characters,
    or of as many as the id has when it has fewer. *)
Theorem getKeyStruct_partition (id : string) :
  snd (getKeyStruct id) = id /\
  String.prefix (fst (getKeyStruct id)) id = true /\
  Js.length (fst (getKeyStruct id)) = Z.min PREFIX_LENGTH (Js.length id).
Proof.
  unfold getKeyStruct. simpl. split; [reflexivity|].
  split; [apply js_substring_0_prefix|].
  rewrite js_substring_0. unfold Js.length, PREFIX_LENGTH.
  rewrite substring_0_length. lia.
Qed.

End ResolverFacts.

(** ** The address written as [creation_ip] *)

Section CreationIpFacts.

Variable anonymizeIp : string -> string.

Lemma substring_0_append (a b : string) :
  String.substring 0 (String.length a) (String.append a b) = a.
Proof. induction a as [|x a IH]; simpl; [destruct b|rewrite IH]; reflexivity. Qed.

Lemma substring_skip_append (a b : string) :
  String.substring (String.length a) (String.length b) (String.append a b) = b.
Proof.
  induction a as [|x a IH]; simpl; [|exact IH].
  apply substring_0_all. lia.
Qed.

Lemma length_append (a b : string) :
  String.length (String.append a b) = (String.length a + String.length b)%nat.
Proof. induction a as [|x a IH]; simpl; [|rewrite IH]; reflexivity. Qed.

Lemma prefix_comma (x : ascii) (s : string) :
  String.prefix "," (String x s) = true <-> x = ","%char.
Proof.
  rewrite String.prefix_correct. simpl.
  assert (String.substring 0 0 s = EmptyString) as -> by (destruct s; reflexivity).
  split; [intros [= ->]; reflexivity|intros ->; reflexivity].
Qed.

(** Where [s.indexOf(',')] points: what comes before holds no comma. *)
Lemma index_comma_split (s : string) (m : nat) :
  String.index 0 "," s = Some m ->
  exists client proxies,
    s = String.append client (String.append "," proxies) /\
    String.length client = m /\
    String.index 0 "," client = None.
Proof.
  revert m. induction s as [|x s IH]; intros m; [discriminate|].
  cbn [String.index].
  destruct (String.prefix "," (String x s)) eqn:Hpre.
  - intros [= <-]. exists EmptyString, s. split; [|split; reflexivity].
    apply prefix_comma in Hpre. subst x. reflexivity.
  - destruct (String.index 0 "," s) as [n|] eqn:Hidx; [|discriminate].
    intros [= <-].
    destruct (IH n eq_refl) as (client & proxies & Hs & Hlen & Hnone).
    exists (String x client), proxies.
    split; [rewrite Hs; reflexivity|].
    split; [rewrite <- Hlen; reflexivity|].
    cbn [String.index]. rewrite Hnone.
    destruct (String.prefix "," (String x client)) eqn:Hpre'; [|reflexivity].
    apply prefix_comma in Hpre'.
    apply (proj2 (prefix_comma x s)) in Hpre'. congruence.
Qed.

(** X17. With a proxy chain in [X-Forwarded-For], only the client
    address, the part of the header before its first comma, goes
    through [anonymizeIp]; the comma and every proxy address after it
    are written to [creation_ip] as they came. *)
Theorem creationIp_proxy_chain (req : Req.t) (header : string) :
  Req.get req "X-Forwarded-For" = Some header ->
  0 < Js.indexOf header "," ->
  exists client proxies,
    header = String.append client (String.append "," proxies) /\
    Js.indexOf client "," = -1 /\
    creationIp anonymizeIp req
    = String.append (anonymizeIp client) (String.append "," proxies).
Proof.
  intros Hget Hcomma. unfold Js.indexOf in Hcomma.
  destruct (String.index 0 "," header) as [m|] eqn:Hidx; [|lia].
  destruct (index_comma_split header m Hidx)
    as (client & proxies & Hsplit & Hlen & Hnone).
  exists client, proxies. split; [assumption|].
  split; [unfold Js.indexOf; rewrite Hnone; reflexivity|].
  unfold creationIp. rewrite Hget.
  assert (Js.or_else (Some header) (anonymizeIp (Req.ip req)) = header) as ->.
  { destruct header; [discriminate|reflexivity]. }
  assert (Js.indexOf header "," = Z.of_nat m) as ->
    by (unfold Js.indexOf; rewrite Hidx; reflexivity).
  destruct (Z.ltb_spec 0 (Z.of_nat m)); [|lia].
  set (rest := String.append "," proxies) in *.
  assert (String.length header = (m + String.length rest)%nat) as Hall
    by (rewrite Hsplit, length_append; lia).
  f_equal.
  - f_equal. rewrite js_substring_0, Nat2Z.id, <- Hlen, Hsplit.
    apply substring_0_append.
  - unfold Js.substring, Js.length. rewrite Hall.
    replace (Z.to_nat (Z.min _ _)) with m by lia.
    replace (Z.to_nat (_ - _)) with (String.length rest) by lia.
    rewrite Hsplit, <- Hlen. apply substring_skip_append.
Qed.

(** X18. Without the header, or with an empty one, the address of the
    connection goes through [anonymizeIp] and the result is what is
    written, provided it holds no comma past its first character. *)
Theorem creationIp_no_header (req : Req.t) :
  Req.get req "X-Forwarded-For" = None \/
  Req.get req "X-Forwarded-For" = Some EmptyString ->
  Js.indexOf (anonymizeIp (Req.ip req)) "," <= 0 ->
  creationIp anonymizeIp req = anonymizeIp (Req.ip req).
Proof.
  intros Hget Hcomma. unfold creationIp.
  assert (Js.or_else (Req.get req "X-Forwarded-For") (anonymizeIp (Req.ip req))
          = anonymizeIp (Req.ip req)) as ->.
  { destruct Hget as [->| ->]; reflexivity. }
  destruct (Z.ltb_spec 0 (Js.indexOf (anonymizeIp (Req.ip req)) ","));
    [lia|reflexivity].
Qed.

End CreationIpFacts.

(** ** The further properties on the worked scenarios *)

Section FurtherScenarios.

Lemma storeItem_row_witness :
  exists a d,
    table (snd (storeItem sample_anonymizeIp "links/" half_minute_zone false
                  None None 44625612345 scenario_item direct_req cloud0))
    !! (StoredObject.prefix scenario_item,
        StoredObject.uniqueSubHash scenario_item) = Some a /\
    full_hash a = StoredObject.fullHash scenario_item /\
    stats_clicks a = 0 /\
    named_metadata a = None /\
    creation_date a = Some d /\
    (d + -2670000) mod 60000 = 0 /\ d <= 44625612345 < d + 60000.
Proof.
  apply (storeItem_row sample_anonymizeIp "links/" half_minute_zone false None
           44625612345 (-2670000) scenario_item direct_req cloud0).
  - reflexivity.
  - reflexivity.
Defined.

Lemma storeItem_frame_witness :
  table (snd (storeItem sample_anonymizeIp "links/" utc_zone false None None 1530000098765
                other_item forwarded_req scenario_cloud))
  !! ("abcdef"%string, "abcdef123"%string)
  = table scenario_cloud !! ("abcdef"%string, "abcdef123"%string) /\
  bucket (snd (storeItem sample_anonymizeIp "links/" utc_zone false None None 1530000098765
                 other_item forwarded_req scenario_cloud))
  !! ("links/"%string, "abcdef1234567890"%string)
  = bucket scenario_cloud !! ("links/"%string, "abcdef1234567890"%string).
Proof.
  apply (storeItem_frame sample_anonymizeIp "links/" utc_zone false None None 1530000098765
           other_item forwarded_req scenario_cloud).
  - apply (bool_decide_unpack _). vm_compute. reflexivity.
  - apply (bool_decide_unpack _). vm_compute. reflexivity.
Defined.

Lemma storeItem_last_write_wins_witness :
  fst (expandId "links/" "abcdef123"
         (snd (storeItem sample_anonymizeIp "links/" utc_zone false None None 1530000012345
                 scenario_item direct_req cloud0)))
  = Return (ExpandedShortLink.mk "the config" None
              (Some (setSeconds00 utc_zone 1530000012345))) /\
  fst (expandId "links/" "abcdef123"
         (snd (storeItem sample_anonymizeIp "links/" utc_zone false None None 1530000098765
                 racing_item forwarded_req
                 (snd (storeItem sample_anonymizeIp "links/" utc_zone false None None
                         1530000012345 scenario_item direct_req cloud0)))))
  = Return (ExpandedShortLink.mk "other config" None
              (Some (setSeconds00 utc_zone 1530000098765))) /\
  bucket
    (snd (storeItem sample_anonymizeIp "links/" utc_zone false None None 1530000098765
            racing_item forwarded_req
            (snd (storeItem sample_anonymizeIp "links/" utc_zone false None None
                    1530000012345 scenario_item direct_req cloud0))))
  !! ("links/"%string, "abcdef1234567890"%string)
  = Some "the config"%string.
Proof.
  apply (storeItem_last_write_wins sample_anonymizeIp "links/" utc_zone false 1530000012345
           1530000098765 scenario_item racing_item direct_req forwarded_req
           cloud0).
  - reflexivity.
  - reflexivity.
  - vm_compute. reflexivity.
  - apply (bool_decide_unpack _). vm_compute. reflexivity.
Defined.

Lemma expandId_dangling_row_witness :
  expandId "links/" "abcdef123"
    (snd (storeItem sample_anonymizeIp "links/" utc_zone false None (Some throttled)
            1530000012345 scenario_item direct_req cloud0))
  = (Throw (NotInStorage "abcdef123"),
     snd (storeItem sample_anonymizeIp "links/" utc_zone false None (Some throttled)
            1530000012345 scenario_item direct_req cloud0)).
Proof.
  apply (expandId_dangling_row sample_anonymizeIp "links/" utc_zone false throttled
           1530000012345 scenario_item direct_req cloud0).
  - vm_compute. reflexivity.
  - vm_compute. reflexivity.
Defined.

Lemma expandId_stable_witness :
  fst (expandId "links/" "abcdef123"
         (snd (storeItem sample_anonymizeIp "links/" utc_zone false None (Some throttled)
                 1530000098765 other_item forwarded_req scenario_cloud)))
  = Return (ExpandedShortLink.mk "the config" None (Some 1530000000000)).
Proof.
  apply (expandId_stable sample_anonymizeIp "links/" utc_zone false None (Some throttled)
           1530000098765 other_item forwarded_req scenario_cloud "abcdef123"
           (mkAttributes "abcdef1234567890" 0 "anonymized"
              (Some 1530000000000) None)).
  - vm_compute. reflexivity.
  - vm_compute. reflexivity.
  - apply (bool_decide_unpack _). vm_compute. reflexivity.
  - apply (bool_decide_unpack _). vm_compute. reflexivity.
Defined.

Lemma resolve_store_expand_witness :
  expandId "links/" "abcdef123"
    (snd (storeItem sample_anonymizeIp "links/" utc_zone false None None 1530000012345
            (StoredObject.mk "abcdef" "abcdef123" "abcdef1234567890"
               "the config") direct_req cloud0))
  = (Return (ExpandedShortLink.mk "the config" None
               (Some (setSeconds00 utc_zone 1530000012345))),
     snd (storeItem sample_anonymizeIp "links/" utc_zone false None None 1530000012345
            (StoredObject.mk "abcdef" "abcdef123" "abcdef1234567890"
               "the config") direct_req cloud0)) /\
  findUniqueSubhash "abcdef1234567890"
    (snd (storeItem sample_anonymizeIp "links/" utc_zone false None None 1530000012345
            (StoredObject.mk "abcdef" "abcdef123" "abcdef1234567890"
               "the config") direct_req cloud0))
  = (Return (SubHash.mk "abcdef" "abcdef123" true),
     snd (storeItem sample_anonymizeIp "links/" utc_zone false None None 1530000012345
            (StoredObject.mk "abcdef" "abcdef123" "abcdef1234567890"
               "the config") direct_req cloud0)).
Proof.
  apply (resolve_store_expand sample_anonymizeIp "links/" utc_zone false 1530000012345
           "abcdef1234567890" "the config" direct_req cloud0 cloud0
           (SubHash.mk "abcdef" "abcdef123" false)).
  vm_compute. reflexivity.
Defined.


Lemma incrementViewCount_counts_witness :
  table (snd (incrementViewCount None "abcdef123" scenario_cloud))
  !! getKeyStruct "abcdef123"
  = Some (mkAttributes "abcdef1234567890" (0 + 1) "anonymized"
            (Some 1530000000000) None) /\
  (forall key, key <> getKeyStruct "abcdef123" ->
     table (snd (incrementViewCount None "abcdef123" scenario_cloud)) !! key
     = table scenario_cloud !! key) /\
  bucket (snd (incrementViewCount None "abcdef123" scenario_cloud))
  = bucket scenario_cloud /\
  logged (snd (incrementViewCount None "abcdef123" scenario_cloud))
  = logged scenario_cloud.
Proof.
  apply (incrementViewCount_counts "abcdef123" scenario_cloud
           (mkAttributes "abcdef1234567890" 0 "anonymized"
              (Some 1530000000000) None)).
  vm_compute. reflexivity.
Defined.

Lemma incrementViewCount_swallows_witness :
  table (snd (incrementViewCount None "abcdefZZZ" scenario_cloud))
  = table scenario_cloud /\
  bucket (snd (incrementViewCount None "abcdefZZZ" scenario_cloud))
  = bucket scenario_cloud /\
  logged (snd (incrementViewCount None "abcdefZZZ" scenario_cloud))
  = String.append "Error when incrementing view count for " "abcdefZZZ"
    :: logged scenario_cloud.
Proof.
  apply (incrementViewCount_swallows None "abcdefZZZ" scenario_cloud).
  right. vm_compute. reflexivity.
Defined.

Lemma incrementViewCount_times_counts_witness :
  table (snd (incrementViewCount_times 3 "abcdef123" scenario_cloud))
  !! getKeyStruct "abcdef123"
  = Some (mkAttributes "abcdef1234567890" (0 + Z.of_nat 3) "anonymized"
            (Some 1530000000000) None).
Proof.
  apply (incrementViewCount_times_counts 3 "abcdef123" scenario_cloud
           (mkAttributes "abcdef1234567890" 0 "anonymized"
              (Some 1530000000000) None)).
  vm_compute. reflexivity.
Defined.

Lemma findUniqueSubhash_partition_scoped_witness :
  fst (findUniqueSubhash "abcdef1234567890"
         (snd (storeItem sample_anonymizeIp "links/" utc_zone false None None 1530000098765
                 misfiled_item forwarded_req scenario_cloud)))
  = fst (findUniqueSubhash "abcdef1234567890" scenario_cloud).
Proof.
  apply (findUniqueSubhash_partition_scoped "abcdef1234567890" scenario_cloud
           (snd (storeItem sample_anonymizeIp "links/" utc_zone false None None 1530000098765
                   misfiled_item forwarded_req scenario_cloud))).
  intros subHash. generalize scenario_cloud. intros c.
  rewrite storeItem_run. simpl.
  rewrite lookup_insert_ne; [reflexivity|].
  intros Heq. apply (f_equal fst) in Heq. vm_compute in Heq. discriminate.
Defined.

Lemma findUniqueSubhash_fresh_witness :
  findUniqueSubhash "abcdefZZZZZZZZZZ" scenario_cloud
  = (Return (SubHash.mk (Js.substring "abcdefZZZZZZZZZZ" 0 PREFIX_LENGTH)
               (Js.substring "abcdefZZZZZZZZZZ" 0 MIN_STORED_ID_LENGTH) false),
     scenario_cloud).
Proof.
  apply (findUniqueSubhash_fresh "abcdefZZZZZZZZZZ" scenario_cloud).
  - cbv [Js.length MIN_STORED_ID_LENGTH]. simpl. lia.
  - vm_compute. reflexivity.
Defined.

Lemma creationIp_proxy_chain_witness :
  exists client proxies,
    "192.168.1.77, 10.1.1.1"%string
    = String.append client (String.append "," proxies) /\
    Js.indexOf client "," = -1 /\
    creationIp sample_anonymizeIp chained_req
    = String.append (sample_anonymizeIp client) (String.append "," proxies).
Proof.
  apply (creationIp_proxy_chain sample_anonymizeIp chained_req
           "192.168.1.77, 10.1.1.1").
  - reflexivity.
  - vm_compute. reflexivity.
Defined.

Lemma creationIp_no_header_witness :
  creationIp sample_anonymizeIp empty_header_req
  = sample_anonymizeIp (Req.ip empty_header_req).
Proof.
  apply (creationIp_no_header sample_anonymizeIp empty_header_req).
  - right. reflexivity.
  - unfold Js.indexOf. simpl. lia.
Defined.

End FurtherScenarios.
